(** * Merkle-tree engine of universal-merkle-sync (package [core])

    A shallow embedding of the Merkle-tree code that follows the
    connector in [connectors/postgresql/postgresql_connector.go]:
    [NewMerkleTree], [buildTree], [GenerateProof], [getProofPath],
    [findParent], [VerifyProof], [reconstructRoot],
    [reconstructRootMultiple], [HashData], [HashConcat], [DiffTrees] and
    [diffNodes].

    Conventions of the embedding:
    - a Go [string] is a [string] (a sequence of 8-bit characters), a
      [[]byte] is a [list byte];
    - a [*MerkleNode] is an [option MerkleNode]; the node carries the
      address [addr] of its allocation, and comparing two pointers is
      comparing addresses;
    - a [map[string]bool] is a [gmap string bool], read with the zero
      value [false] for absent keys;
    - a returned [(T, error)] is a [result T];
    - the two loops that halve a list ([buildTree],
      [reconstructRootMultiple]) recurse on a fuel set to the length of
      the list, which is enough ([buildTree_fuel_enough],
      [buildTree_nonempty], [reduceLevels_fuel]); the walk to the root
      of [getProofPath] returns [None] when its fuel runs out, and ends
      on every tree [NewMerkleTree] builds
      ([getProofPath_loop_terminates]). *)

From Stdlib Require Import ZArith List Lia Bool Permutation.
From Stdlib.Strings Require Import String Ascii Byte.
From stdpp Require Import gmap strings list sorting.

Import ListNotations.

(** ** SHA-256 (FIPS 180-4), the digest behind [crypto/sha256.Sum256] *)

Module SHA256.
Local Open Scope Z_scope.

Definition wrap32 (x : Z) : Z := Z.land x 0xffffffff.
Definition add32 (x y : Z) : Z := wrap32 (x + y).
Definition rotr (n x : Z) : Z :=
  Z.lor (Z.shiftr x n) (wrap32 (Z.shiftl x (32 - n))).
Definition not32 (x : Z) : Z := Z.lxor x 0xffffffff.

Definition Ch (x y z : Z) : Z := Z.lxor (Z.land x y) (Z.land (not32 x) z).
Definition Maj (x y z : Z) : Z :=
  Z.lxor (Z.lxor (Z.land x y) (Z.land x z)) (Z.land y z).
Definition bsig0 (x : Z) : Z := Z.lxor (Z.lxor (rotr 2 x) (rotr 13 x)) (rotr 22 x).
Definition bsig1 (x : Z) : Z := Z.lxor (Z.lxor (rotr 6 x) (rotr 11 x)) (rotr 25 x).
Definition ssig0 (x : Z) : Z := Z.lxor (Z.lxor (rotr 7 x) (rotr 18 x)) (Z.shiftr x 3).
Definition ssig1 (x : Z) : Z := Z.lxor (Z.lxor (rotr 17 x) (rotr 19 x)) (Z.shiftr x 10).

(** The constants of the standard, by their definition: the first 32
    bits of the fractional parts of the cube roots (round constants) and
    of the square roots (initial hash value) of the first primes. *)
Definition isPrime (n : nat) : bool :=
  forallb (fun d => negb (Nat.eqb (n mod d) 0)) (List.seq 2 (n - 2)).

Definition primes : list Z :=
  map Z.of_nat (List.filter isPrime (List.seq 2 310)).

Fixpoint cubeRoot (bits : nat) (x r : Z) : Z :=
  match bits with
  | O => r
  | S bits' =>
      let c := Z.lor r (Z.shiftl 1 (Z.of_nat bits')) in
      cubeRoot bits' x (if c * c * c <=? x then c else r)
  end.

Definition fracCubeRoot (p : Z) : Z := wrap32 (cubeRoot 40 (Z.shiftl p 96) 0).
Definition fracSquareRoot (p : Z) : Z := wrap32 (Z.sqrt (Z.shiftl p 64)).

Definition K : list Z := Eval vm_compute in map fracCubeRoot primes.

(** The eight working words. *)
Record state : Type := State {
  sa : Z; sb : Z; sc : Z; sd : Z; se : Z; sf : Z; sg : Z; sh : Z }.

Definition init : state :=
  Eval vm_compute in
    let h := fun i => fracSquareRoot (nth i primes 0) in
    State (h 0%nat) (h 1%nat) (h 2%nat) (h 3%nat) (h 4%nat) (h 5%nat) (h 6%nat) (h 7%nat).

Definition byteZ (b : byte) : Z := Z.of_N (Byte.to_N b).
Definition Zbyte (z : Z) : byte :=
  match Byte.of_N (Z.to_N (Z.land z 0xff)) with
  | Some b => b
  | None => x00
  end.

(** Big-endian 32-bit words of a block. *)
Fixpoint words (n : nat) (bs : list byte) : list Z :=
  match n with
  | O => []
  | S n' =>
      match bs with
      | b0 :: b1 :: b2 :: b3 :: rest =>
          (Z.lor (Z.shiftl (byteZ b0) 24)
             (Z.lor (Z.shiftl (byteZ b1) 16)
                (Z.lor (Z.shiftl (byteZ b2) 8) (byteZ b3)))) :: words n' rest
      | _ => []
      end
  end.

(** Message schedule, most recent word first: [w] holds W(t-1), W(t-2), ... *)
Fixpoint schedule (n : nat) (w : list Z) : list Z :=
  match n with
  | O => w
  | S n' =>
      let wt := add32 (add32 (ssig1 (nth 1 w 0)) (nth 6 w 0))
                      (add32 (ssig0 (nth 14 w 0)) (nth 15 w 0)) in
      schedule n' (wt :: w)
  end.

Definition round (s : state) (kw : Z * Z) : state :=
  let t1 := add32 (add32 (add32 (sh s) (bsig1 (se s))) (Ch (se s) (sf s) (sg s)))
                  (add32 (fst kw) (snd kw)) in
  let t2 := add32 (bsig0 (sa s)) (Maj (sa s) (sb s) (sc s)) in
  State (add32 t1 t2) (sa s) (sb s) (sc s) (add32 (sd s) t1) (se s) (sf s) (sg s).

Definition compress (s : state) (block : list byte) : state :=
  let w := rev (schedule 48 (rev (words 16 block))) in
  let r := fold_left round (combine K w) s in
  State (add32 (sa s) (sa r)) (add32 (sb s) (sb r)) (add32 (sc s) (sc r))
        (add32 (sd s) (sd r)) (add32 (se s) (se r)) (add32 (sf s) (sf r))
        (add32 (sg s) (sg r)) (add32 (sh s) (sh r)).

Fixpoint be_bytes (n : nat) (z : Z) : list byte :=
  match n with
  | O => []
  | S n' => Zbyte (Z.shiftr z (8 * Z.of_nat n')) :: be_bytes n' z
  end.

(** Padding: a 1 bit, zeros up to 56 mod 64 bytes, the bit length on 8 bytes. *)
Definition pad (msg : list byte) : list byte :=
  let len := Z.of_nat (length msg) in
  msg ++ [x80] ++ repeat x00 (Z.to_nat ((55 - len) mod 64)) ++ be_bytes 8 (8 * len).

Fixpoint blocks (n : nat) (bs : list byte) (s : state) : state :=
  match n with
  | O => s
  | S n' => blocks n' (skipn 64 bs) (compress s (firstn 64 bs))
  end.

Definition digest_bytes (s : state) : list byte :=
  be_bytes 4 (sa s) ++ be_bytes 4 (sb s) ++ be_bytes 4 (sc s) ++ be_bytes 4 (sd s) ++
  be_bytes 4 (se s) ++ be_bytes 4 (sf s) ++ be_bytes 4 (sg s) ++ be_bytes 4 (sh s).

(** [sha256.Sum256]: the 32-byte digest of [msg]. *)
Definition Sum256 (msg : list byte) : list byte :=
  let p := pad msg in
  digest_bytes (blocks (length p / 64)%nat p init).

End SHA256.

(** ** [encoding/hex] *)

Definition hexdigit (n : N) : ascii :=
  match n with
  | 0 => "0" | 1 => "1" | 2 => "2" | 3 => "3" | 4 => "4" | 5 => "5" | 6 => "6" | 7 => "7"
  | 8 => "8" | 9 => "9" | 10 => "a" | 11 => "b" | 12 => "c" | 13 => "d" | 14 => "e"
  | _ => "f"
  end%N%char.

(** [hex.EncodeToString]: two digits per byte, high nibble first, drawn
    from the table [0123456789abcdef]. *)
Fixpoint EncodeToString (bs : list byte) : string :=
  match bs with
  | [] => EmptyString
  | b :: rest =>
      String (hexdigit (N.shiftr (Byte.to_N b) 4))
        (String (hexdigit (N.land (Byte.to_N b) 15)) (EncodeToString rest))
  end.

Definition bytes_of (s : string) : list byte := list_byte_of_string s.


(** ** Data model *)

(** [type MerkleNode struct]. [addr] is the address of the allocation
    ([&MerkleNode{...}]); the Go code compares nodes by pointer only. *)
#[warnings="-register-all"]
Inductive MerkleNode : Type := mkNode {
  addr : nat;
  Hash : string;
  Left : option MerkleNode;
  Right : option MerkleNode;
  IsLeaf : bool;
  Data : list byte;
  BlockID : string }.

(** [type MerkleTree struct] *)
Record MerkleTree : Type := mkTree {
  Root : option MerkleNode;
  Leaves : list MerkleNode;
  RootHash : string }.

(** [type DataBlock struct] *)
Record DataBlock : Type := mkBlock {
  ID : string;
  EncryptedData : list byte;
  TableName : string;
  Operation : string;
  Timestamp : Z;
  Metadata : gmap string string }.

(** [type ProofNode struct { Hash string; IsLeft bool }] *)
Record ProofNode : Type := mkProofNode {
  ProofHash : string;
  IsLeft : bool }.

(** [type DiffNode struct { Hash string; IsLeaf bool }] *)
Record DiffNode : Type := mkDiffNode {
  DiffHash : string;
  DiffIsLeaf : bool }.

(** A Go result [(T, error)]: either the value with a nil error, or the
    error built by [fmt.Errorf] with its message. *)
Inductive result (A : Type) : Type :=
| Ok (value : A)
| Err (msg : string).
Arguments Ok {A} value.
Arguments Err {A} msg.

(** [p == q] on [*MerkleNode]. *)
Definition ptr_eq (p q : option MerkleNode) : bool :=
  match p, q with
  | None, None => true
  | Some a, Some b => Nat.eqb (addr a) (addr b)
  | _, _ => false
  end.

(** [m[k]] on a [map[string]bool]. *)
Definition mapGet (m : gmap string bool) (k : string) : bool :=
  default false (m !! k).

(** [sort.Strings]: ascending byte-wise lexicographic order. *)
Definition sortStrings (l : list string) : list string :=
  merge_sort String.le l.

(** ** Hashing *)

(** [func HashData(data []byte) string] *)
Definition HashData (data : list byte) : string :=
  let prefix := bytes_of "LEAF:" in
  let combined := prefix ++ data in
  EncodeToString (SHA256.Sum256 combined).

(** [func HashConcat(hash1, hash2 string) string] *)
Definition HashConcat (hash1 hash2 : string) : string :=
  let prefix := bytes_of "INTERNAL:" in
  let combined := prefix ++ bytes_of hash1 in
  let combined := combined ++ bytes_of hash2 in
  EncodeToString (SHA256.Sum256 combined).

(** ** Tree builder *)

(** The loop of [NewMerkleTree] that creates the leaf nodes; the leaf of
    block [i] is the allocation number [next + i]. *)
Fixpoint makeLeaves (next : nat) (blocks : list DataBlock) : list MerkleNode :=
  match blocks with
  | [] => []
  | block :: rest =>
      let leafHash := HashData (EncryptedData block) in
      mkNode next leafHash None None true (EncryptedData block) (ID block)
        :: makeLeaves (S next) rest
  end.

(** The loop of [buildTree] that creates the parent nodes, two nodes at
    a time. The list it runs on has an even length; on a lone last node
    the Go loop would index out of range, and no parent is made here. *)
Fixpoint makeParents (next : nat) (nodes : list MerkleNode) : list MerkleNode :=
  match nodes with
  | left_ :: right_ :: rest =>
      let parentHash := HashConcat (Hash left_) (Hash right_) in
      mkNode next parentHash (Some left_) (Some right_) false [] ""
        :: makeParents (S next) rest
  | _ => []
  end.

(** [if len(nodes)%2 == 1 { nodes = append(nodes, nodes[len(nodes)-1]) }] *)
Definition padOdd (nodes : list MerkleNode) : list MerkleNode :=
  if Nat.odd (length nodes)
  then match last nodes with
       | Some n => nodes ++ [n]
       | None => nodes
       end
  else nodes.

(** [func buildTree(nodes []*MerkleNode) *MerkleNode], with the number
    of the next allocation. Each call recurses on a list of half the
    length (rounded up), so [length nodes] recursive calls are enough. *)
Fixpoint buildTree_fuel (fuel next : nat) (nodes : list MerkleNode) : option MerkleNode :=
  match nodes with
  | [] => None
  | [n] => Some n
  | _ =>
      match fuel with
      | O => None
      | S fuel' =>
          let parents := makeParents next (padOdd nodes) in
          buildTree_fuel fuel' (next + length parents) parents
      end
  end.

Definition buildTree (next : nat) (nodes : list MerkleNode) : option MerkleNode :=
  buildTree_fuel (length nodes) next nodes.

(** [func NewMerkleTree(blocks []DataBlock)], returning the tree and an error. *)
Definition NewMerkleTree (blocks : list DataBlock) : result MerkleTree :=
  if Nat.eqb (length blocks) 0
  then Ok (mkTree None [] "")
  else
    let leaves := makeLeaves 0 blocks in
    let root := buildTree (length leaves) leaves in
    let rootHash := match root with
                    | Some r => Hash r
                    | None => ""
                    end in
    Ok (mkTree root leaves rootHash).

(** ** Proof generator *)

(** [findParentRecursive] entered on a non-nil [current]. *)
Fixpoint findParentFrom (current target : MerkleNode) : option MerkleNode :=
  match current with
  | mkNode _ _ l r isLeaf _ _ =>
      if isLeaf then None
      else if ptr_eq l (Some target) || ptr_eq r (Some target) then Some current
      else
        match (match l with
               | Some l' => findParentFrom l' target
               | None => None
               end) with
        | Some parent => Some parent
        | None =>
            match r with
            | Some r' => findParentFrom r' target
            | None => None
            end
        end
  end.

(** [func (mt *MerkleTree) findParentRecursive(current, target *MerkleNode) *MerkleNode] *)
Definition findParentRecursive (current : option MerkleNode) (target : MerkleNode)
  : option MerkleNode :=
  match current with
  | None => None
  | Some c => findParentFrom c target
  end.

(** [func (mt *MerkleTree) findParent(target *MerkleNode) *MerkleNode] *)
Definition findParent (mt : MerkleTree) (target : MerkleNode) : option MerkleNode :=
  findParentRecursive (Root mt) target.

(** The body of the loop of [getProofPath] after the parent was found:
    the sibling is appended unless its hash was visited already. *)
Definition addSibling (parent current : MerkleNode)
    (visited : gmap string bool) (proofPath : list ProofNode)
  : list ProofNode * gmap string bool :=
  let isLeft := ptr_eq (Left parent) (Some current) in
  let sibling := if isLeft then Right parent else Left parent in
  match sibling with
  | Some s =>
      if negb (mapGet visited (Hash s))
      then (proofPath ++ [mkProofNode (Hash s) (negb isLeft)],
            <[Hash s := true]> visited)
      else (proofPath, visited)
  | None => (proofPath, visited)
  end.

(** The loop [for current != mt.Root] of [getProofPath]. [None] stands
    for a walk that is not over after [fuel] iterations. *)
Fixpoint getProofPath_loop (fuel : nat) (mt : MerkleTree) (current : MerkleNode)
    (visited : gmap string bool) (proofPath : list ProofNode)
  : option (list ProofNode * gmap string bool) :=
  if ptr_eq (Some current) (Root mt) then Some (proofPath, visited)
  else
    match fuel with
    | O => None
    | S fuel' =>
        match findParent mt current with
        | None => Some (proofPath, visited)
        | Some parent =>
            let '(proofPath', visited') :=
              addSibling parent current visited proofPath in
            getProofPath_loop fuel' mt parent visited' proofPath'
        end
    end.

(** Number of edges on the longest branch below a node. *)
Fixpoint height (n : MerkleNode) : nat :=
  match n with
  | mkNode _ _ l r _ _ _ =>
      Nat.max (match l with Some l' => S (height l') | None => 0 end)
              (match r with Some r' => S (height r') | None => 0 end)
  end.

Definition treeHeight (mt : MerkleTree) : nat :=
  match Root mt with
  | Some r => height r
  | None => 0
  end.

(** [func (mt *MerkleTree) getProofPath(leaf *MerkleNode, visited map[string]bool) []ProofNode].
    The map is shared with the caller, so the updated map is returned
    with the path. The walk climbs one level per iteration and is given
    the height of the tree as fuel. *)
Definition getProofPath (mt : MerkleTree) (leaf : MerkleNode)
    (visited : gmap string bool) : option (list ProofNode * gmap string bool) :=
  getProofPath_loop (treeHeight mt) mt leaf visited [].

(** The first loop of [GenerateProof]: for each requested hash, the
    first leaf with that hash, if there is one. *)
Fixpoint findLeaves (leaves : list MerkleNode) (leafHashes : list string)
  : list MerkleNode :=
  match leafHashes with
  | [] => []
  | hash :: rest =>
      match List.find (fun leaf => String.eqb (Hash leaf) hash) leaves with
      | Some leaf => leaf :: findLeaves leaves rest
      | None => findLeaves leaves rest
      end
  end.

(** The second loop of [GenerateProof]: the paths of the leaves found,
    one after the other, with one [visited] map for all of them. *)
Fixpoint collectPaths (mt : MerkleTree) (leafNodes : list MerkleNode)
    (visited : gmap string bool) (proofPath : list ProofNode)
  : option (list ProofNode) :=
  match leafNodes with
  | [] => Some proofPath
  | leaf :: rest =>
      match getProofPath mt leaf visited with
      | Some (path, visited') => collectPaths mt rest visited' (proofPath ++ path)
      | None => None
      end
  end.

(** [func (mt *MerkleTree) GenerateProof(leafHashes []string) ([]ProofNode, error)].
    [None] only when a walk to the root ran out of fuel. *)
Definition GenerateProof (mt : MerkleTree) (leafHashes : list string)
  : option (result (list ProofNode)) :=
  match Root mt with
  | None => Some (Err "empty tree")
  | Some _ =>
      let leafNodes := findLeaves (Leaves mt) leafHashes in
      if Nat.eqb (length leafNodes) 0
      then Some (Err "no matching leaf nodes found")
      else
        match collectPaths mt leafNodes ∅ [] with
        | Some proofPath => Some (Ok proofPath)
        | None => None
        end
  end.

(** ** Proof verifier *)

(** One pass of the inner loop of [reconstructRootMultiple] over a level. *)
Fixpoint combineLevel (currentLevel : list string) : list string :=
  match currentLevel with
  | a :: b :: rest => HashConcat a b :: combineLevel rest
  | [a] => [HashConcat a a]
  | [] => []
  end.

(** The loop [for len(currentLevel) > 1]; every pass halves the level
    (rounding up), so [length currentLevel] passes are enough. *)
Fixpoint reduceLevels (fuel : nat) (currentLevel : list string) : list string :=
  match currentLevel with
  | _ :: _ :: _ =>
      match fuel with
      | O => currentLevel
      | S fuel' => reduceLevels fuel' (combineLevel currentLevel)
      end
  | _ => currentLevel
  end.

(** [func reconstructRootMultiple(leafHashes []string, proofPath []ProofNode) string] *)
Definition reconstructRootMultiple (leafHashes : list string)
    (proofPath : list ProofNode) : string :=
  let availableHashes :=
    fold_left (fun (m : gmap string bool) h => <[h := true]> m) leafHashes ∅ in
  let availableHashes :=
    fold_left (fun (m : gmap string bool) proofNode => <[ProofHash proofNode := true]> m)
      proofPath availableHashes in
  let currentLevel := List.filter (fun h => mapGet availableHashes h) leafHashes in
  let currentLevel := sortStrings currentLevel in
  let currentLevel := reduceLevels (length currentLevel) currentLevel in
  match currentLevel with
  | [h] => h
  | _ => ""
  end.

(** The single-leaf loop of [reconstructRoot]. *)
Definition foldPath (currentHash : string) (proofPath : list ProofNode) : string :=
  fold_left (fun cur proofNode =>
               if IsLeft proofNode
               then HashConcat (ProofHash proofNode) cur
               else HashConcat cur (ProofHash proofNode))
    proofPath currentHash.

(** [func reconstructRoot(leafHashes []string, proofPath []ProofNode) string] *)
Definition reconstructRoot (leafHashes : list string) (proofPath : list ProofNode)
  : string :=
  match leafHashes with
  | [] => ""
  | [h] => foldPath h proofPath
  | _ => reconstructRootMultiple leafHashes proofPath
  end.

(** [func VerifyProof(rootHash string, leafHashes []string, proofPath []ProofNode) (bool, error)] *)
Definition VerifyProof (rootHash : string) (leafHashes : list string)
    (proofPath : list ProofNode) : result bool :=
  if Nat.eqb (length leafHashes) 0
  then Err "no leaf hashes provided"
  else
    let sortedLeaves := sortStrings leafHashes in
    let computedRoot := reconstructRoot sortedLeaves proofPath in
    Ok (String.eqb computedRoot rootHash).

(** ** Tree differ *)

(** [diffNodes] when [node1] is nil. *)
Definition diffNil (node2 : option MerkleNode) (differences : list DiffNode)
  : list DiffNode :=
  match node2 with
  | None => differences
  | Some n2 => differences ++ [mkDiffNode (Hash n2) (IsLeaf n2)]
  end.

(** [diffNodes] when [node1] is not nil. *)
Fixpoint diffFrom (node1 : MerkleNode) (node2 : option MerkleNode)
    (differences : list DiffNode) : list DiffNode :=
  match node1 with
  | mkNode _ hash1 l1 r1 isLeaf1 _ _ =>
      match node2 with
      | None => differences ++ [mkDiffNode hash1 isLeaf1]
      | Some n2 =>
          if negb (String.eqb hash1 (Hash n2))
          then
            if isLeaf1 && IsLeaf n2
            then differences ++ [mkDiffNode hash1 true; mkDiffNode (Hash n2) true]
            else
              let differences :=
                match l1 with
                | Some l => diffFrom l (Left n2) differences
                | None => diffNil (Left n2) differences
                end in
              match r1 with
              | Some r => diffFrom r (Right n2) differences
              | None => diffNil (Right n2) differences
              end
          else differences
      end
  end.

(** [func diffNodes(node1, node2 *MerkleNode, differences *[]DiffNode)];
    the slice behind the pointer is passed in and returned. *)
Definition diffNodes (node1 node2 : option MerkleNode) (differences : list DiffNode)
  : list DiffNode :=
  match node1 with
  | None => diffNil node2 differences
  | Some n1 => diffFrom n1 node2 differences
  end.

(** [func DiffTrees(root1, root2 *MerkleTree) ([]DiffNode, error)] *)
Definition DiffTrees (root1 root2 : option MerkleTree) : result (list DiffNode) :=
  match root1, root2 with
  | None, None => Ok []
  | Some t1, Some t2 => Ok (diffNodes (Root t1) (Root t2) [])
  | _, _ => Err "one tree is nil"
  end.

(** ** Test data of [core/merkle_tree_test.go] *)

Definition block (id data table : string) : DataBlock :=
  mkBlock id (bytes_of data) table "" 0 ∅.

Definition blocks2 : list DataBlock :=
  [ block "1" "data1" "table1"; block "2" "data2" "table1" ].

Definition blocks4 : list DataBlock :=
  [ block "1" "data1" "table1"; block "2" "data2" "table1";
    block "3" "data3" "table1"; block "4" "data4" "table1" ].

Definition treeOf (blocks : list DataBlock) : MerkleTree :=
  match NewMerkleTree blocks with
  | Ok t => t
  | Err _ => mkTree None [] ""
  end.

Definition tree0 : MerkleTree := treeOf [].
Definition tree2 : MerkleTree := treeOf blocks2.
Definition tree4 : MerkleTree := treeOf blocks4.

Definition nilNode : MerkleNode := mkNode 0 "" None None false [] "".

(** [tree4.Leaves[i]] *)
Definition leaf4 (i : nat) : MerkleNode := nth i (Leaves tree4) nilNode.

(** ** Vocabulary of the proofs *)

(** The nodes reachable from a node, itself included. *)
Fixpoint nodesOf (n : MerkleNode) : list MerkleNode :=
  n :: match n with
       | mkNode _ _ l r _ _ _ =>
           match l with Some l' => nodesOf l' | None => [] end ++
           match r with Some r' => nodesOf r' | None => [] end
       end.

Definition treeNodes (mt : MerkleTree) : list MerkleNode :=
  match Root mt with
  | Some r => nodesOf r
  | None => []
  end.

(** What [NewMerkleTree] and [buildTree] store in a node: a leaf has no
    child and the hash of its data; a parent has two children of the
    same height and the hash of their hashes. *)
Definition shaped (n : MerkleNode) : Prop :=
  match Left n, Right n with
  | None, None => IsLeaf n = true /\ Hash n = HashData (Data n)
  | Some l, Some r =>
      IsLeaf n = false /\ Hash n = HashConcat (Hash l) (Hash r) /\ height l = height r
  | _, _ => False
  end.

(** A tree as the allocator leaves it: every node is [shaped] and no two
    distinct nodes share an address. *)
Definition wfNode (root : MerkleNode) : Prop :=
  (forall s, s ∈ nodesOf root -> shaped s) /\
  (forall s u, s ∈ nodesOf root -> u ∈ nodesOf root -> addr s = addr u -> s = u).

(** The invariant of the list [buildTree] recurses on: nodes of height
    [k], allocated below [next]. *)
Record levelInv (next k : nat) (nodes : list MerkleNode) : Prop := mkLevelInv {
  inv_shape : forall n s, n ∈ nodes -> s ∈ nodesOf n -> shaped s;
  inv_below : forall n s, n ∈ nodes -> s ∈ nodesOf n -> addr s < next;
  inv_uniq : forall n m s u, n ∈ nodes -> m ∈ nodes ->
      s ∈ nodesOf n -> u ∈ nodesOf m -> addr s = addr u -> s = u;
  inv_height : forall n, n ∈ nodes -> height n = k }.

(** The bytes a node's hash is the digest of. *)
Definition preimage (n : MerkleNode) : list byte :=
  if IsLeaf n
  then bytes_of "LEAF:" ++ Data n
  else (bytes_of "INTERNAL:" ++
        bytes_of (match Left n with Some l => Hash l | None => "" end)) ++
        bytes_of (match Right n with Some r => Hash r | None => "" end).

Fixpoint bytes_eqb (a b : list byte) : bool :=
  match a, b with
  | [], [] => true
  | x :: a', y :: b' => Byte.eqb x y && bytes_eqb a' b'
  | _, _ => false
  end.

(** SHA-256 does not collide on the nodes of the tree: two nodes with
    the same hash were hashed from the same bytes. *)
Definition collisionFree (mt : MerkleTree) : bool :=
  forallb (fun a =>
    forallb (fun b =>
      implb (String.eqb (Hash a) (Hash b)) (bytes_eqb (preimage a) (preimage b)))
      (treeNodes mt))
    (treeNodes mt).

(** The characters [hex.EncodeToString] writes. *)
Definition lowerHex (c : ascii) : bool :=
  let n := N_of_ascii c in
  ((48 <=? n) && (n <=? 57) || (97 <=? n) && (n <=? 102))%N.

Fixpoint allChars (p : ascii -> bool) (s : string) : bool :=
  match s with
  | EmptyString => true
  | String c rest => p c && allChars p rest
  end.

(** Some leaf of the list has the hash [h]. *)
Definition hasLeaf (leaves : list MerkleNode) (h : string) : bool :=
  existsb (fun leaf => String.eqb (Hash leaf) h) leaves.

(** Every hash marked in [visited] is the hash of a node of the tree
    lower than [h]. *)
Definition visitedBelow (root : MerkleNode) (visited : gmap string bool) (h : nat) : Prop :=
  forall k, mapGet visited k = true ->
            exists x, x ∈ nodesOf root /\ Hash x = k /\ height x < h.

(** ** Hexadecimal conversions of the hashes *)

(** The errors of [encoding/hex]: [ErrLength] ("odd length hex string")
    and [InvalidByteError] with the offending byte. *)
Inductive hexError : Type :=
| ErrLength
| InvalidByteError (c : ascii).

(** The table [encoding/hex] decodes a digit with: [0-9], [a-f] and
    [A-F] have a value, every other byte is invalid. *)
Definition fromHexChar (c : ascii) : option N :=
  let n := N_of_ascii c in
  if ((48 <=? n) && (n <=? 57))%N then Some (n - 48)%N
  else if ((97 <=? n) && (n <=? 102))%N then Some (n - 87)%N
  else if ((65 <=? n) && (n <=? 70))%N then Some (n - 55)%N
  else None.

Definition byteOfN (n : N) : byte :=
  match Byte.of_N n with
  | Some b => b
  | None => x00
  end.

(** [hex.DecodeString]: the bytes decoded so far and the error, if any.
    The digits are read two at a time; the first invalid one stops the
    decoding; a lone last digit is reported as invalid if it is, as
    [ErrLength] otherwise. *)
Fixpoint DecodeString (s : string) : list byte * option hexError :=
  match s with
  | EmptyString => ([], None)
  | String p EmptyString =>
      match fromHexChar p with
      | None => ([], Some (InvalidByteError p))
      | Some _ => ([], Some ErrLength)
      end
  | String p (String q rest) =>
      match fromHexChar p with
      | None => ([], Some (InvalidByteError p))
      | Some a =>
          match fromHexChar q with
          | None => ([], Some (InvalidByteError q))
          | Some b =>
              let '(bs, err) := DecodeString rest in
              (byteOfN (N.lor (N.shiftl a 4) b) :: bs, err)
          end
      end
  end.

(** [func HashToString(data []byte) string] *)
Definition HashToString (data : list byte) : string :=
  EncodeToString data.

(** [func StringToHash(hashStr string) ([]byte, error)] *)
Definition StringToHash (hashStr : string) : list byte * option hexError :=
  DecodeString hashStr.

(** The loop of [fetchFromServer] (edge-client/go_client.go) that turns
    the proof path of the server's answer into [core.ProofNode]s: every
    hash is decoded and encoded again, and the first hash that does not
    decode ends the function with that error ("failed to decode proof
    hash"). The nodes of the answer carry the same two fields. *)
Fixpoint convertProof (proofPath : list ProofNode) : list ProofNode + hexError :=
  match proofPath with
  | [] => inl []
  | node :: rest =>
      match StringToHash (ProofHash node) with
      | (hashBytes, None) =>
          match convertProof rest with
          | inl proofNodes =>
              inl (mkProofNode (HashToString hashBytes) (IsLeft node) :: proofNodes)
          | inr err => inr err
          end
      | (_, Some err) => inr err
      end
  end.

(** ** The XOR cipher of the connectors *)

(** [a ^ b] on two bytes. *)
Definition xorByte (a b : byte) : byte :=
  byteOfN (N.lxor (Byte.to_N a) (Byte.to_N b)).

(** The loop [for i := 0; i < len(data); i++] from index [i] on, over
    the rest of [data]. [None] is the run-time panic of [i%len(key)]
    on an empty key. *)
Fixpoint xorFrom (key : list byte) (i : nat) (data : list byte)
  : option (list byte) :=
  match data with
  | [] => Some []
  | d :: rest =>
      if Nat.eqb (length key) 0 then None
      else
        match nth_error key (i mod length key) with
        | Some k =>
            match xorFrom key (S i) rest with
            | Some out => Some (xorByte d k :: out)
            | None => None
            end
        | None => None
        end
  end.

(** [func (p *PostgreSQLConnector) encrypt(data []byte) ([]byte, error)],
    the same function of the MongoDB connector and of [MockEdgeClient]:
    the key is the receiver's [encryptionKey]. [None] is a panic. *)
Definition encrypt (encryptionKey data : list byte) : option (result (list byte)) :=
  match xorFrom encryptionKey 0 data with
  | Some encrypted => Some (Ok encrypted)
  | None => None
  end.

(** [func (c *MockEdgeClient) decrypt(data []byte) ([]byte, error)]
    (examples/integration_demo.go). *)
Definition decrypt (encryptionKey data : list byte) : option (result (list byte)) :=
  match xorFrom encryptionKey 0 data with
  | Some decrypted => Some (Ok decrypted)
  | None => None
  end.

(** ** More vocabulary *)

Definition isHexDigit (c : ascii) : bool :=
  match fromHexChar c with
  | Some _ => true
  | None => false
  end.

(** [A-F] to [a-f], every other character unchanged. *)
Definition lowerChar (c : ascii) : ascii :=
  let n := N_of_ascii c in
  if ((65 <=? n) && (n <=? 70))%N then ascii_of_N (n + 32) else c.

Fixpoint lowerString (s : string) : string :=
  match s with
  | EmptyString => EmptyString
  | String c rest => String (lowerChar c) (lowerString rest)
  end.

(** The root of the levels above a list of hashes, paired as
    [buildTree] pairs nodes. *)
Definition levelRoot (hashes : list string) : list string :=
  reduceLevels (length hashes) hashes.

(** Two blocks whose leaf hashes are in ascending order. *)
Definition blocks23 : list DataBlock :=
  [ block "2" "data2" "table1"; block "3" "data3" "table1" ].

(** Every node below [n] is [shaped]. *)
Definition shapedTree (n : MerkleNode) : Prop := forall s, s ∈ nodesOf n -> shaped s.

(** Leaf descriptors only, an even number of them. *)
Definition leafDescriptors (differences : list DiffNode) : Prop :=
  Forall (fun d => DiffIsLeaf d = true) differences /\
  Nat.even (length differences) = true.

(** * Properties *)

Local Open Scope string_scope.
Local Open Scope list_scope.

(** ** The digest and its encoding *)

Example K_table :
  length SHA256.K = 64 /\ hd 0%Z SHA256.K = 0x428a2f98%Z /\ last SHA256.K = Some 0xc67178f2%Z.
Proof. repeat split. Qed.

Example init_words :
  SHA256.sa SHA256.init = 0x6a09e667%Z /\ SHA256.sh SHA256.init = 0x5be0cd19%Z.
Proof. split; reflexivity. Qed.

Example sha256_abc :
  EncodeToString (SHA256.Sum256 (bytes_of "abc")) =
  "ba7816bf8f01cfea414140de5dae2223b00361a396177a9cb410ff61f20015ad".
Proof. vm_compute. reflexivity. Qed.

Example sha256_empty :
  EncodeToString (SHA256.Sum256 []) =
  "e3b0c44298fc1c149afbf4c8996fb92427ae41e4649b934ca495991b7852b855".
Proof. vm_compute. reflexivity. Qed.

Example sha256_two_blocks :
  EncodeToString
    (SHA256.Sum256 (bytes_of "abcdbcdecdefdefgefghfghighijhijkijkljklmklmnlmnomnopnopq")) =
  "248d6a61d20638b8e5c026930c3e6039a33ce45964ff2167f6ecedd419db06c1".
Proof. vm_compute. reflexivity. Qed.

Lemma length_be_bytes n z : length (SHA256.be_bytes n z) = n.
Proof. induction n as [|n IH]; simpl; [reflexivity | now rewrite IH]. Qed.

Lemma length_Sum256 msg : length (SHA256.Sum256 msg) = 32.
Proof.
  unfold SHA256.Sum256, SHA256.digest_bytes.
  rewrite !length_app, !length_be_bytes. reflexivity.
Qed.

Lemma length_EncodeToString bs :
  String.length (EncodeToString bs) = 2 * length bs.
Proof. induction bs as [|b bs IH]; simpl; [reflexivity | rewrite IH; lia]. Qed.

Lemma hexdigit_lower n : lowerHex (hexdigit n) = true.
Proof.
  destruct n as [|p]; [reflexivity|].
  do 5 (try destruct p as [p|p|]; try reflexivity).
Qed.

Lemma EncodeToString_lower bs : allChars lowerHex (EncodeToString bs) = true.
Proof.
  induction bs as [|b bs IH]; simpl; [reflexivity|].
  now rewrite !hexdigit_lower, IH.
Qed.

Lemma length_HashData data : String.length (HashData data) = 64.
Proof. unfold HashData. now rewrite length_EncodeToString, length_Sum256. Qed.

Lemma length_HashConcat hash1 hash2 : String.length (HashConcat hash1 hash2) = 64.
Proof. unfold HashConcat. now rewrite length_EncodeToString, length_Sum256. Qed.

Lemma HashData_nonempty data : HashData data <> "".
Proof. intros E. pose proof (length_HashData data) as H. rewrite E in H. discriminate H. Qed.

Lemma HashConcat_nonempty hash1 hash2 : HashConcat hash1 hash2 <> "".
Proof.
  intros E. pose proof (length_HashConcat hash1 hash2) as H. rewrite E in H. discriminate H.
Qed.

Lemma bytes_of_inj s1 s2 : bytes_of s1 = bytes_of s2 -> s1 = s2.
Proof.
  unfold bytes_of. intros E.
  rewrite <- (string_of_list_byte_of_string s1), <- (string_of_list_byte_of_string s2).
  now rewrite E.
Qed.

Lemma length_bytes_of s : length (bytes_of s) = String.length s.
Proof.
  unfold bytes_of, list_byte_of_string.
  rewrite length_map. induction s as [|c s IH]; simpl; [reflexivity | now rewrite IH].
Qed.

Lemma bytes_eqb_eq a b : bytes_eqb a b = true <-> a = b.
Proof.
  revert b. induction a as [|x a IH]; intros [|y b]; simpl.
  - split; reflexivity.
  - split; discriminate.
  - split; discriminate.
  - rewrite andb_true_iff, IH. split.
    + intros [Hx ->]. apply Byte.byte_dec_bl in Hx. now subst.
    + intros [= -> ->]. split; [apply Byte.byte_dec_lb|]; reflexivity.
Qed.

Lemma HashData_eq payload :
  HashData payload = EncodeToString (SHA256.Sum256 (bytes_of "LEAF:" ++ payload)).
Proof. reflexivity. Qed.

Lemma HashConcat_eq hash1 hash2 :
  HashConcat hash1 hash2 =
  EncodeToString (SHA256.Sum256 (bytes_of "INTERNAL:" ++ bytes_of hash1 ++ bytes_of hash2)).
Proof. unfold HashConcat. now rewrite <- app_assoc. Qed.

(** C8. [HashData] is the lowercase hexadecimal form of the 32-byte
    SHA-256 digest of the tag ["LEAF:"] followed by the payload;
    [HashConcat] is that of the tag ["INTERNAL:"] followed by the bytes
    of the left hash string, then those of the right one. Both outputs
    are 64 characters of [0-9a-f], and [HashConcat] is not commutative. *)
Theorem hash_byte_contracts :
  (forall payload,
      HashData payload = EncodeToString (SHA256.Sum256 (bytes_of "LEAF:" ++ payload))) /\
  (forall left_ right_,
      HashConcat left_ right_ =
      EncodeToString (SHA256.Sum256 (bytes_of "INTERNAL:" ++ bytes_of left_ ++ bytes_of right_))) /\
  (forall msg, length (SHA256.Sum256 msg) = 32) /\
  (forall payload,
      String.length (HashData payload) = 64 /\ allChars lowerHex (HashData payload) = true) /\
  (forall left_ right_,
      String.length (HashConcat left_ right_) = 64 /\
      allChars lowerHex (HashConcat left_ right_) = true) /\
  (exists left_ right_,
      left_ <> right_ /\ HashConcat left_ right_ <> HashConcat right_ left_).
Proof.
  split; [|split; [|split; [|split; [|split]]]].
  - apply HashData_eq.
  - apply HashConcat_eq.
  - apply length_Sum256.
  - intros payload. split; [apply length_HashData | apply EncodeToString_lower].
  - intros left_ right_. split; [apply length_HashConcat | apply EncodeToString_lower].
  - exists "abc123", "def456". split; [discriminate|].
    intros E. vm_compute in E. discriminate E.
Qed.

(** The values [TestHashConcat] compares. *)
Example HashConcat_abc123_def456 :
  HashConcat "abc123" "def456" =
    "593350dd4f0b43d9488388a2f5cc8437b72fd110536809302019cb2b1ad61472" /\
  HashConcat "def456" "abc123" =
    "3dfadd89ae068f3d5138ef3f6bd565bebcd7cad220f3e5644099797f514c5298".
Proof. split; vm_compute; reflexivity. Qed.

(** The structural proofs below never look inside the digest. *)
Global Opaque HashData HashConcat.

(** ** Sorting *)

Lemma sortStrings_perm (l1 l2 : list string) :
  l1 ≡ₚ l2 -> sortStrings l1 = sortStrings l2.
Proof.
  intros Hp. unfold sortStrings.
  apply (Sorted_unique String.le).
  - apply Sorted_merge_sort; apply _.
  - apply Sorted_merge_sort; apply _.
  - now rewrite !merge_sort_Permutation.
Qed.

Lemma sortStrings_length (l : list string) : length (sortStrings l) = length l.
Proof. unfold sortStrings. now rewrite merge_sort_Permutation. Qed.

(** ** Trees: induction, reachable nodes *)

Lemma MerkleNode_induction (P : MerkleNode -> Prop) :
  (forall a h l r il d b,
      (forall l', l = Some l' -> P l') ->
      (forall r', r = Some r' -> P r') ->
      P (mkNode a h l r il d b)) ->
  forall n, P n.
Proof.
  intros step. fix IH 1. intros [a h l r il d b].
  apply step.
  - destruct l as [l0|]; intros l' E; [injection E as <-; apply IH | discriminate E].
  - destruct r as [r0|]; intros r' E; [injection E as <-; apply IH | discriminate E].
Qed.

Lemma nodesOf_self n : n ∈ nodesOf n.
Proof. destruct n; simpl; apply list_elem_of_here. Qed.

Lemma nodesOf_unfold n s :
  s ∈ nodesOf n <->
  s = n \/
  (exists l, Left n = Some l /\ s ∈ nodesOf l) \/
  (exists r, Right n = Some r /\ s ∈ nodesOf r).
Proof.
  destruct n as [a h l r il d b]; simpl.
  rewrite elem_of_cons, elem_of_app. split.
  - intros [->|[H|H]]; [now left | right; left | right; right].
    + destruct l as [l0|]; [eauto | now apply elem_of_nil in H].
    + destruct r as [r0|]; [eauto | now apply elem_of_nil in H].
  - intros [->|[[l0 [-> H]]|[r0 [-> H]]]]; auto.
Qed.

Lemma nodesOf_trans n m s : m ∈ nodesOf n -> s ∈ nodesOf m -> s ∈ nodesOf n.
Proof.
  revert m s. induction n as [a h l r il d b IHl IHr] using MerkleNode_induction.
  intros m s Hm Hs. apply nodesOf_unfold in Hm as [->|[[l0 [E H]]|[r0 [E H]]]]; [assumption| |];
    simpl in E; subst; apply nodesOf_unfold.
  - right; left. eexists; split; [reflexivity|]. eapply IHl; eauto.
  - right; right. eexists; split; [reflexivity|]. eapply IHr; eauto.
Qed.

Lemma nodesOf_child p x :
  Left p = Some x \/ Right p = Some x -> x ∈ nodesOf p.
Proof.
  intros H. apply nodesOf_unfold.
  destruct H; [right; left | right; right]; eauto using nodesOf_self.
Qed.

Lemma nodesOf_descend root p x :
  p ∈ nodesOf root -> Left p = Some x \/ Right p = Some x -> x ∈ nodesOf root.
Proof. intros Hp Hx. apply nodesOf_trans with p; [exact Hp | now apply nodesOf_child]. Qed.

Create HintDb merkle.
#[local] Hint Resolve nodesOf_self nodesOf_child nodesOf_descend : merkle.
#[local] Hint Resolve list_elem_of_here list_elem_of_further : merkle.

Lemma height_unfold n :
  height n = Nat.max (match Left n with Some l => S (height l) | None => 0 end)
                     (match Right n with Some r => S (height r) | None => 0 end).
Proof. destruct n; reflexivity. Qed.

Lemma nodesOf_height n s : s ∈ nodesOf n -> s = n \/ height s < height n.
Proof.
  revert s. induction n as [a h l r il d b IHl IHr] using MerkleNode_induction.
  intros s Hs. apply nodesOf_unfold in Hs as [->|[[l0 [E H]]|[r0 [E H]]]]; [now left| |];
    simpl in E; subst; right; rewrite (height_unfold (mkNode _ _ _ _ _ _ _)); simpl.
  - destruct (IHl l0 eq_refl s H) as [->|Hlt]; lia.
  - destruct (IHr r0 eq_refl s H) as [->|Hlt]; lia.
Qed.

Lemma shaped_hash_length n : shaped n -> String.length (Hash n) = 64.
Proof.
  unfold shaped. destruct (Left n), (Right n); try tauto.
  - intros (_ & -> & _). apply length_HashConcat.
  - intros (_ & ->). apply length_HashData.
Qed.

Lemma shaped_hash_nonempty n : shaped n -> Hash n <> "".
Proof. intros H E. apply shaped_hash_length in H. rewrite E in H. discriminate H. Qed.

(** The hash of a node is the digest of its [preimage]. *)
Lemma shaped_hash_preimage n :
  shaped n -> Hash n = EncodeToString (SHA256.Sum256 (preimage n)).
Proof.
  unfold shaped, preimage. destruct (Left n), (Right n); try tauto.
  - intros (-> & -> & _). rewrite HashConcat_eq. now rewrite app_assoc.
  - intros (-> & ->). apply HashData_eq.
Qed.

(** ** The allocation loops *)

Lemma list_pair_ind {A} (P : list A -> Prop) :
  P [] -> (forall x, P [x]) -> (forall x y l, P l -> P (x :: y :: l)) -> forall l, P l.
Proof.
  intros H0 H1 H2. fix IH 1. intros [|x [|y l]]; [exact H0 | apply H1 | apply H2, IH].
Qed.

Lemma makeLeaves_length next blocks : length (makeLeaves next blocks) = length blocks.
Proof. revert next. induction blocks as [|b bs IH]; intros next; simpl; [reflexivity | now rewrite IH]. Qed.

Lemma makeLeaves_elem next blocks n :
  n ∈ makeLeaves next blocks ->
  next <= addr n < next + length blocks /\
  exists b, b ∈ blocks /\
    n = mkNode (addr n) (HashData (EncryptedData b)) None None true (EncryptedData b) (ID b).
Proof.
  revert next. induction blocks as [|b bs IH]; intros next; simpl.
  - intros H. now apply elem_of_nil in H.
  - rewrite elem_of_cons. intros [->|H]; simpl.
    + split; [lia|]. exists b. split; [apply list_elem_of_here | reflexivity].
    + destruct (IH _ H) as [Hr (b' & Hb & E)]. split; [lia|].
      exists b'. split; [now apply list_elem_of_further | exact E].
Qed.

Lemma makeLeaves_addr_inj next blocks n m :
  n ∈ makeLeaves next blocks -> m ∈ makeLeaves next blocks -> addr n = addr m -> n = m.
Proof.
  revert next. induction blocks as [|b bs IH]; intros next; simpl.
  - intros H. now apply elem_of_nil in H.
  - rewrite !elem_of_cons. intros [->|Hn] [->|Hm]; simpl; intros E.
    + reflexivity.
    + apply makeLeaves_elem in Hm as [Hm _]. lia.
    + apply makeLeaves_elem in Hn as [Hn _]. simpl in E. lia.
    + eapply IH; eauto.
Qed.

Lemma makeLeaves_inv blocks :
  levelInv (length blocks) 0 (makeLeaves 0 blocks).
Proof.
  assert (Hleaf : forall n s, n ∈ makeLeaves 0 blocks -> s ∈ nodesOf n -> s = n).
  { intros n s Hn Hs. apply makeLeaves_elem in Hn as [_ (b & _ & E)].
    rewrite E in Hs. simpl in Hs. apply list_elem_of_singleton in Hs. now rewrite E. }
  constructor.
  - intros n s Hn Hs. rewrite (Hleaf _ _ Hn Hs).
    apply makeLeaves_elem in Hn as [_ (b & _ & E)]. rewrite E. unfold shaped. simpl. auto.
  - intros n s Hn Hs. rewrite (Hleaf _ _ Hn Hs).
    apply makeLeaves_elem in Hn as [Hn _]. lia.
  - intros n m s u Hn Hm Hs Hu. rewrite (Hleaf _ _ Hn Hs), (Hleaf _ _ Hm Hu).
    now apply (makeLeaves_addr_inj 0 blocks).
  - intros n Hn. apply makeLeaves_elem in Hn as [_ (b & _ & E)]. now rewrite E.
Qed.

(** Quotient and remainder by two, for [lia]. *)
Ltac halves n :=
  pose proof (Nat.div_mod_eq n 2);
  pose proof (Nat.mod_upper_bound n 2 ltac:(lia)).

Lemma div2_SS n : S (S n) / 2 = S (n / 2).
Proof. replace (S (S n)) with (1 * 2 + n) by lia. rewrite Nat.div_add_l by lia. lia. Qed.

Lemma makeParents_length next nodes :
  length (makeParents next nodes) = length nodes / 2.
Proof.
  revert next. induction nodes as [| x | x y l IH] using list_pair_ind; intros next;
    [reflexivity | reflexivity |].
  cbn [makeParents length]. now rewrite IH, div2_SS.
Qed.

Lemma makeParents_elem next nodes p :
  p ∈ makeParents next nodes ->
  next <= addr p < next + length nodes / 2 /\
  exists l r, l ∈ nodes /\ r ∈ nodes /\
    p = mkNode (addr p) (HashConcat (Hash l) (Hash r)) (Some l) (Some r) false [] "".
Proof.
  revert next. induction nodes as [| x | x y l IH] using list_pair_ind; intros next.
  - intros H. now apply elem_of_nil in H.
  - intros H. now apply elem_of_nil in H.
  - cbn [makeParents length]. rewrite div2_SS, elem_of_cons. intros [->|H]; simpl addr.
    + split; [lia|]. exists x, y. repeat split; [apply list_elem_of_here | apply list_elem_of_further, list_elem_of_here].
    + destruct (IH _ H) as [Hr (l0 & r0 & Hl & Hr' & E)]. split; [lia|].
      exists l0, r0. repeat split; [now do 2 apply list_elem_of_further .. | exact E].
Qed.

Lemma makeParents_addr_inj next nodes p q :
  p ∈ makeParents next nodes -> q ∈ makeParents next nodes -> addr p = addr q -> p = q.
Proof.
  revert next. induction nodes as [| x | x y l IH] using list_pair_ind; intros next.
  - intros H. now apply elem_of_nil in H.
  - intros H. now apply elem_of_nil in H.
  - simpl makeParents. rewrite !elem_of_cons. intros [->|Hp] [->|Hq]; simpl; intros E.
    + reflexivity.
    + apply makeParents_elem in Hq as [Hq _]. lia.
    + apply makeParents_elem in Hp as [Hp _]. simpl in E. lia.
    + eapply IH; eauto.
Qed.

Lemma makeParents_cover next nodes n :
  Nat.even (length nodes) = true -> n ∈ nodes ->
  exists p, p ∈ makeParents next nodes /\ (Left p = Some n \/ Right p = Some n).
Proof.
  revert next. induction nodes as [| x | x y l IH] using list_pair_ind; intros next Hev Hn.
  - now apply elem_of_nil in Hn.
  - discriminate Hev.
  - simpl makeParents. rewrite !elem_of_cons in Hn. destruct Hn as [->|[->|Hn]].
    + eexists. split; [apply list_elem_of_here|]. now left.
    + eexists. split; [apply list_elem_of_here|]. now right.
    + destruct (IH (S next) Hev Hn) as (p & Hp & Hc).
      exists p. split; [now apply list_elem_of_further | exact Hc].
Qed.

Lemma padOdd_elem nodes n : n ∈ padOdd nodes <-> n ∈ nodes.
Proof.
  unfold padOdd. destruct (Nat.odd (length nodes)); [|reflexivity].
  destruct (last nodes) as [x|] eqn:E; [|reflexivity].
  rewrite elem_of_app, list_elem_of_singleton. split; [|now left].
  intros [H| ->]; [assumption|]. apply last_Some in E as [l' ->].
  apply elem_of_app. right. apply list_elem_of_here.
Qed.

Lemma padOdd_length nodes :
  length (padOdd nodes) = length nodes + length nodes mod 2 /\
  Nat.even (length (padOdd nodes)) = true.
Proof.
  unfold padOdd.
  halves (length nodes).
  destruct (Nat.odd (length nodes)) eqn:Hodd.
  - destruct (last nodes) as [x|] eqn:E.
    + rewrite length_app. cbn [length]. split.
      * apply Nat.odd_spec in Hodd as [k Hk]. lia.
      * now rewrite Nat.add_1_r, Nat.even_succ.
    + apply last_None in E. subst. discriminate Hodd.
  - rewrite <- Nat.negb_even in Hodd. apply negb_false_iff in Hodd. split; [|exact Hodd].
    apply Nat.even_spec in Hodd as [k Hk]. lia.
Qed.

(** ** [buildTree] keeps the level invariant and returns a well-formed root *)

Lemma levelInv_padOdd next k nodes :
  levelInv next k nodes -> levelInv next k (padOdd nodes).
Proof.
  intros [Hs Hb Hu Hh]. constructor.
  - intros n s Hn. apply -> padOdd_elem in Hn. eauto.
  - intros n s Hn. apply -> padOdd_elem in Hn. eauto.
  - intros n m s u Hn Hm. apply -> padOdd_elem in Hn. apply -> padOdd_elem in Hm. eauto.
  - intros n Hn. apply -> padOdd_elem in Hn. eauto.
Qed.

Lemma makeParents_nodes next nodes p s :
  p ∈ makeParents next nodes -> s ∈ nodesOf p ->
  s = p \/ exists n, n ∈ nodes /\ s ∈ nodesOf n.
Proof.
  intros Hp Hs. destruct (makeParents_elem _ _ _ Hp) as [_ (l & r & Hl & Hr & E)].
  assert (HL : Left p = Some l) by (rewrite E; reflexivity).
  assert (HR : Right p = Some r) by (rewrite E; reflexivity).
  apply nodesOf_unfold in Hs as [->|[(l0 & El & H)|(r0 & Er & H)]].
  - now left.
  - right. rewrite HL in El. injection El as <-. eauto.
  - right. rewrite HR in Er. injection Er as <-. eauto.
Qed.

Lemma makeParents_inv next k nodes :
  levelInv next k nodes ->
  levelInv (next + length nodes / 2) (S k) (makeParents next nodes).
Proof.
  intros [Hs Hb Hu Hh]. constructor.
  - intros p s Hp Hsp.
    destruct (makeParents_nodes _ _ _ _ Hp Hsp) as [->|(n & Hn & Hsn)]; [|eauto].
    destruct (makeParents_elem _ _ _ Hp) as [_ (l & r & Hl & Hr & E)].
    rewrite E. unfold shaped. simpl. repeat split. now rewrite (Hh l), (Hh r).
  - intros p s Hp Hsp.
    destruct (makeParents_nodes _ _ _ _ Hp Hsp) as [->|(n & Hn & Hsn)].
    + apply makeParents_elem in Hp as [Hp _]. lia.
    + specialize (Hb _ _ Hn Hsn). lia.
  - intros p q s u Hp Hq Hsp Huq E.
    destruct (makeParents_nodes _ _ _ _ Hp Hsp) as [->|(n & Hn & Hsn)];
      destruct (makeParents_nodes _ _ _ _ Hq Huq) as [->|(m & Hm & Hum)].
    + eapply makeParents_addr_inj; eauto.
    + apply makeParents_elem in Hp as [Hp _]. specialize (Hb _ _ Hm Hum). lia.
    + apply makeParents_elem in Hq as [Hq _]. specialize (Hb _ _ Hn Hsn). lia.
    + eauto.
  - intros p Hp. destruct (makeParents_elem _ _ _ Hp) as [_ (l & r & Hl & Hr & E)].
    rewrite E. simpl. rewrite (Hh l), (Hh r) by assumption. lia.
Qed.

Lemma buildTree_fuel_spec fuel :
  forall next k nodes,
    length nodes <= fuel -> nodes <> [] -> levelInv next k nodes ->
    exists root,
      buildTree_fuel fuel next nodes = Some root /\
      wfNode root /\
      (forall n s, n ∈ nodes -> s ∈ nodesOf n -> s ∈ nodesOf root) /\
      match nodes with
      | [n] => root = n
      | _ => IsLeaf root = false
      end.
Proof.
  induction fuel as [|fuel IH]; intros next k nodes Hlen Hne Hinv.
  - destruct nodes; [congruence | simpl in Hlen; lia].
  - destruct nodes as [|x [|y rest]]; [congruence | |].
    + exists x. simpl. split; [reflexivity|]. destruct Hinv as [Hs Hb Hu Hh].
      assert (Hx : x ∈ [x]) by apply list_elem_of_here.
      repeat split; eauto.
      intros n s Hn. apply list_elem_of_singleton in Hn as ->. auto.
    + set (nodes := x :: y :: rest) in *.
      assert (Hn2 : 2 <= length nodes) by (simpl; lia).
      destruct (padOdd_length nodes) as [Hpl Hev].
      halves (length nodes).
      halves (length (padOdd nodes)).
      pose proof (makeParents_length next (padOdd nodes)) as Hlp.
      pose proof (makeParents_inv _ _ _ (levelInv_padOdd _ _ _ Hinv)) as Hinv'.
      rewrite <- Hlp in Hinv'.
      destruct (IH (next + length (makeParents next (padOdd nodes))) (S k)
                  (makeParents next (padOdd nodes))) as (root & Hb & Hwf & Hcov & Hleaf).
      * lia.
      * intros E. rewrite E in Hlp. cbn [length] in Hlp. lia.
      * exact Hinv'.
      * exists root. split; [exact Hb|]. split; [exact Hwf|]. split.
        -- intros n s Hn Hs.
           destruct (makeParents_cover next (padOdd nodes) n Hev) as (p & Hp & Hc).
           { now apply padOdd_elem. }
           apply (Hcov p); [exact Hp|].
           apply nodesOf_trans with n; [auto with merkle | exact Hs].
        -- destruct (makeParents next (padOdd nodes)) as [|p [|q ps]] eqn:Ep;
             try exact Hleaf.
           subst root. assert (Hp : p ∈ makeParents next (padOdd nodes))
             by (rewrite Ep; apply list_elem_of_here).
           apply makeParents_elem in Hp as [_ (l & r & _ & _ & E)]. now rewrite E.
Qed.

Lemma NewMerkleTree_spec blocks :
  blocks <> [] ->
  exists root,
    NewMerkleTree blocks = Ok (mkTree (Some root) (makeLeaves 0 blocks) (Hash root)) /\
    wfNode root /\
    (forall leaf, leaf ∈ makeLeaves 0 blocks -> leaf ∈ nodesOf root) /\
    IsLeaf root = Nat.eqb (length blocks) 1.
Proof.
  intros Hne. unfold NewMerkleTree.
  destruct blocks as [|b bs] eqn:Eb; [congruence|]. rewrite <- Eb in *.
  assert (Hlen : Nat.eqb (length blocks) 0 = false).
  { apply Nat.eqb_neq. rewrite Eb. simpl. lia. }
  rewrite Hlen. unfold buildTree.
  destruct (buildTree_fuel_spec (length (makeLeaves 0 blocks)) (length (makeLeaves 0 blocks)) 0
              (makeLeaves 0 blocks)) as (root & Hb & Hwf & Hcov & Hleaf).
  - lia.
  - rewrite Eb. discriminate.
  - rewrite makeLeaves_length. apply makeLeaves_inv.
  - exists root. rewrite Hb. repeat split; try apply Hwf.
    + intros leaf Hl. apply (Hcov leaf); [exact Hl | apply nodesOf_self].
    + rewrite Eb in *. simpl in Hleaf |- *. destruct bs as [|b' bs']; simpl in *.
      * now subst root.
      * exact Hleaf.
Qed.

(** ** Fuel: the bounds given to the two halving loops are enough *)

Lemma combineLevel_length level : length (combineLevel level) = (length level + 1) / 2.
Proof.
  induction level as [| x | x y l IH] using list_pair_ind; [reflexivity | reflexivity |].
  cbn [combineLevel length]. rewrite IH.
  replace (S (S (length l)) + 1) with (1 * 2 + (length l + 1)) by lia.
  rewrite Nat.div_add_l by lia. lia.
Qed.

Lemma reduceLevels_fuel fuel : forall level,
  length level <= fuel -> length (reduceLevels fuel level) <= 1.
Proof.
  induction fuel as [|fuel IH]; intros level Hlen.
  - destruct level as [|a [|b rest]]; cbn in *; lia.
  - destruct level as [|a [|b rest]]; [cbn; lia | cbn; lia |].
    cbn [reduceLevels]. apply IH. rewrite combineLevel_length.
    halves (length (a :: b :: rest) + 1).
    cbn [length] in *. lia.
Qed.

Lemma reduceLevels_more fuel : forall fuel' level,
  length level <= fuel -> length level <= fuel' ->
  reduceLevels fuel level = reduceLevels fuel' level.
Proof.
  induction fuel as [|fuel IH]; intros fuel' level Hlen Hlen'.
  - destruct level as [|a rest]; [now destruct fuel' | cbn in Hlen; lia].
  - destruct level as [|a [|b rest]]; [now destruct fuel' | now destruct fuel' |].
    destruct fuel' as [|fuel']; [cbn in Hlen'; lia|].
    cbn [reduceLevels]. apply IH; rewrite combineLevel_length;
      halves (length (a :: b :: rest) + 1);
      cbn [length] in *; lia.
Qed.

Lemma buildTree_fuel_more fuel : forall fuel' next nodes,
  length nodes <= fuel -> length nodes <= fuel' ->
  buildTree_fuel fuel next nodes = buildTree_fuel fuel' next nodes.
Proof.
  induction fuel as [|fuel IH]; intros fuel' next nodes Hlen Hlen'.
  - destruct nodes as [|a rest]; [now destruct fuel' | cbn in Hlen; lia].
  - destruct nodes as [|a [|b rest]]; [now destruct fuel' | now destruct fuel' |].
    destruct fuel' as [|fuel']; [cbn in Hlen'; lia|].
    set (nodes := a :: b :: rest) in *.
    assert (Hc : length (makeParents next (padOdd nodes)) <= length (b :: rest)).
    { rewrite makeParents_length. destruct (padOdd_length nodes) as [Hpl _].
      halves (length nodes).
      halves (length (padOdd nodes)).
      subst nodes. cbn [length] in *. lia. }
    subst nodes. cbn [buildTree_fuel]. apply IH; cbn [length] in *; lia.
Qed.

(** [buildTree] does not depend on the fuel once it covers the list. *)
Lemma buildTree_fuel_enough fuel next nodes :
  length nodes <= fuel -> buildTree_fuel fuel next nodes = buildTree next nodes.
Proof. intros H. unfold buildTree. now apply buildTree_fuel_more. Qed.

(** [buildTree] returns nil on the empty list only. *)
Lemma buildTree_fuel_nonempty fuel : forall next nodes,
  length nodes <= fuel -> nodes <> [] ->
  exists root, buildTree_fuel fuel next nodes = Some root.
Proof.
  induction fuel as [|fuel IH]; intros next nodes Hlen Hne.
  - destruct nodes; [congruence | cbn in Hlen; lia].
  - destruct nodes as [|a [|b rest]]; [congruence | cbn; eauto |].
    set (nodes := a :: b :: rest) in *.
    cbn [buildTree_fuel]. apply IH.
    + rewrite makeParents_length. destruct (padOdd_length nodes) as [Hpl _].
      halves (length nodes). halves (length (padOdd nodes)).
      subst nodes. cbn [length] in *. lia.
    + intros E. pose proof (makeParents_length next (padOdd nodes)) as Hl.
      rewrite E in Hl. cbn [length] in Hl. destruct (padOdd_length nodes) as [Hpl _].
      halves (length (padOdd nodes)). subst nodes. cbn [length] in *. lia.
Qed.

Lemma buildTree_nonempty next nodes :
  nodes <> [] -> exists root, buildTree next nodes = Some root.
Proof. intros H. unfold buildTree. now apply buildTree_fuel_nonempty. Qed.

(** ** [findParent] on a well-formed tree *)

Lemma findParentFrom_sound r c p :
  findParentFrom r c = Some p ->
  p ∈ nodesOf r /\ IsLeaf p = false /\
  (ptr_eq (Left p) (Some c) = true \/ ptr_eq (Right p) (Some c) = true).
Proof.
  revert p. induction r as [a h l r il d b IHl IHr] using MerkleNode_induction.
  intros p. cbn [findParentFrom]. destruct il; [discriminate|].
  destruct (ptr_eq l (Some c) || ptr_eq r (Some c)) eqn:E.
  - intros [= <-]. split; [apply nodesOf_self|]. split; [reflexivity|].
    now apply orb_true_iff in E.
  - assert (Hl : forall l', l = Some l' -> findParentFrom l' c = Some p ->
                            p ∈ nodesOf (mkNode a h l r false d b) /\ IsLeaf p = false /\
                            (ptr_eq (Left p) (Some c) = true \/ ptr_eq (Right p) (Some c) = true)).
    { intros l' El Hf. destruct (IHl l' El p Hf) as (Hin & Hrest). split; [|exact Hrest].
      apply nodesOf_unfold. right; left. exists l'. now split. }
    assert (Hr : forall r', r = Some r' -> findParentFrom r' c = Some p ->
                            p ∈ nodesOf (mkNode a h l r false d b) /\ IsLeaf p = false /\
                            (ptr_eq (Left p) (Some c) = true \/ ptr_eq (Right p) (Some c) = true)).
    { intros r' Er Hf. destruct (IHr r' Er p Hf) as (Hin & Hrest). split; [|exact Hrest].
      apply nodesOf_unfold. right; right. exists r'. now split. }
    destruct l as [l'|].
    + destruct (findParentFrom l' c) as [q|] eqn:Fl.
      * intros [= <-]. now apply (Hl l').
      * destruct r as [r'|]; [|discriminate]. intros Hf. now apply (Hr r').
    + destruct r as [r'|]; [|discriminate]. intros Hf. now apply (Hr r').
Qed.

Lemma findParentFrom_complete r c :
  (forall s, s ∈ nodesOf r -> shaped s) -> c ∈ nodesOf r -> c <> r ->
  exists p, findParentFrom r c = Some p.
Proof.
  induction r as [a h l r il d b IHl IHr] using MerkleNode_induction.
  intros Hshape Hc Hne.
  pose proof (Hshape _ (nodesOf_self _)) as Hs. unfold shaped in Hs. cbn [Left Right IsLeaf Hash] in Hs.
  apply nodesOf_unfold in Hc as [->|Hc]; [congruence|]. cbn [Left Right] in Hc.
  destruct l as [l'|], r as [r'|]; try tauto.
  2:{ destruct Hc as [(? & [=] & _)|(? & [=] & _)]. }
  destruct Hs as (-> & _ & _). cbn [findParentFrom].
  destruct (ptr_eq (Some l') (Some c) || ptr_eq (Some r') (Some c)) eqn:E; [eauto|].
  apply orb_false_iff in E as [El Er]. cbn [ptr_eq] in El, Er.
  assert (Hsub : forall x, (x = l' \/ x = r') -> forall s, s ∈ nodesOf x -> shaped s).
  { intros x Hx s Hsx. apply Hshape. apply nodesOf_unfold. cbn [Left Right].
    destruct Hx as [->| ->]; [right; left | right; right]; eauto. }
  destruct Hc as [(x & [= <-] & Hc)|(x & [= <-] & Hc)].
  - destruct (IHl l' eq_refl (Hsub l' (or_introl eq_refl)) Hc) as [p ->]; [|eauto].
    intros ->. rewrite Nat.eqb_refl in El. discriminate.
  - destruct (findParentFrom l' c) as [q|]; [eauto|].
    apply (IHr r' eq_refl (Hsub r' (or_intror eq_refl)) Hc).
    intros ->. rewrite Nat.eqb_refl in Er. discriminate.
Qed.

(** The equation of the Go function, nil cases included. *)
Lemma findParentRecursive_unfold current target :
  findParentRecursive current target =
  match current with
  | None => None
  | Some c =>
      if IsLeaf c then None
      else if ptr_eq (Left c) (Some target) || ptr_eq (Right c) (Some target) then Some c
      else match findParentRecursive (Left c) target with
           | Some parent => Some parent
           | None => findParentRecursive (Right c) target
           end
  end.
Proof.
  destruct current as [[a h l r il d b]|]; [|reflexivity].
  cbn. destruct il; [reflexivity|].
  destruct (ptr_eq l (Some target) || ptr_eq r (Some target)); [reflexivity|].
  destruct l, r; reflexivity.
Qed.

Section Walk.

Variable root : MerkleNode.
Hypothesis Hwf : wfNode root.

Lemma parent_step c :
  c ∈ nodesOf root -> c <> root ->
  exists p l r,
    findParentFrom root c = Some p /\ p ∈ nodesOf root /\
    Left p = Some l /\ Right p = Some r /\
    l ∈ nodesOf root /\ r ∈ nodesOf root /\
    Hash p = HashConcat (Hash l) (Hash r) /\
    height l = height r /\ height p = S (height l) /\
    ((ptr_eq (Left p) (Some c) = true /\ l = c) \/
     (ptr_eq (Left p) (Some c) = false /\ r = c)).
Proof.
  destruct Hwf as [Hshape Huniq]. intros Hc Hne.
  destruct (findParentFrom_complete root c Hshape Hc Hne) as [p Hf].
  destruct (findParentFrom_sound _ _ _ Hf) as (Hp & Hil & Hptr).
  pose proof (Hshape p Hp) as Hs. unfold shaped in Hs.
  destruct (Left p) as [l|] eqn:HL, (Right p) as [r|] eqn:HR; try tauto.
  2:{ destruct Hs as [Hs _]. congruence. }
  destruct Hs as (_ & Hh & Hlr).
  assert (Hl : l ∈ nodesOf root) by eauto with merkle.
  assert (Hr : r ∈ nodesOf root) by eauto with merkle.
  exists p, l, r. repeat (split; [assumption|]).
  split.
  { rewrite (height_unfold p), HL, HR. lia. }
  rewrite HL. cbn [ptr_eq] in Hptr |- *. destruct (Nat.eqb (addr l) (addr c)) eqn:El.
  - left. split; [reflexivity|]. apply Nat.eqb_eq in El. now apply Huniq.
  - right. split; [reflexivity|]. destruct Hptr as [Hptr|Hptr]; [discriminate|].
    apply Nat.eqb_eq in Hptr. now apply Huniq.
Qed.

Lemma ptr_eq_root c :
  c ∈ nodesOf root ->
  ptr_eq (Some c) (Some root) = true <-> c = root.
Proof.
  destruct Hwf as [_ Huniq]. intros Hc. cbn [ptr_eq]. rewrite Nat.eqb_eq. split; [|now intros ->].
  intros E. apply Huniq; auto using nodesOf_self.
Qed.

(** ** [getProofPath]: the walk ends, and folds back to the root hash *)

Variable leaves : list MerkleNode.
Variable rh : string.

Lemma getProofPath_loop_terminates fuel :
  forall c visited acc,
    c ∈ nodesOf root -> height root <= height c + fuel ->
    exists res, getProofPath_loop fuel (mkTree (Some root) leaves rh) c visited acc = Some res.
Proof.
  induction fuel as [|fuel IH]; intros c visited acc Hc Hfuel.
  - cbn [getProofPath_loop Root].
    destruct (ptr_eq (Some c) (Some root)) eqn:E; [eauto|].
    exfalso. destruct (nodesOf_height _ _ Hc) as [->|Hlt]; [|lia].
    cbn [ptr_eq] in E. rewrite Nat.eqb_refl in E. discriminate.
  - cbn [getProofPath_loop Root].
    destruct (ptr_eq (Some c) (Some root)) eqn:E; [eauto|].
    assert (Hne : c <> root).
    { intros ->. cbn [ptr_eq] in E. rewrite Nat.eqb_refl in E. discriminate. }
    destruct (parent_step c Hc Hne)
      as (p & l & r & Hf & Hp & HL & HR & Hl & Hr & Hh & Hlr & Hhp & Hside).
    unfold findParent, findParentRecursive. cbn [Root]. rewrite Hf.
    destruct (addSibling p c visited acc) as [acc' visited'].
    apply IH; [exact Hp|].
    destruct Hside as [[_ <-]|[_ <-]]; lia.
Qed.

End Walk.

Lemma mapGet_insert (visited : gmap string bool) k k' :
  mapGet (<[k := true]> visited) k' = true -> k' = k \/ mapGet visited k' = true.
Proof.
  unfold mapGet. destruct (decide (k = k')) as [->|Hne].
  - now left.
  - rewrite lookup_insert_ne by assumption. now right.
Qed.

Lemma foldPath_app h p1 p2 : foldPath h (p1 ++ p2) = foldPath (foldPath h p1) p2.
Proof. unfold foldPath. apply fold_left_app. Qed.

Section Fold.

Variable root : MerkleNode.
Hypothesis Hwf : wfNode root.
Hypothesis Hsame :
  forall a b, a ∈ nodesOf root -> b ∈ nodesOf root ->
              Hash a = Hash b -> height a = height b.
Variable leaves : list MerkleNode.
Variable rh : string.

Lemma getProofPath_loop_folds fuel :
  forall c visited acc,
    c ∈ nodesOf root -> height root <= height c + fuel ->
    visitedBelow root visited (height c) ->
    exists path visited',
      getProofPath_loop fuel (mkTree (Some root) leaves rh) c visited acc
        = Some (acc ++ path, visited') /\
      foldPath (Hash c) path = Hash root.
Proof.
  induction fuel as [|fuel IH]; intros c visited acc Hc Hfuel Hvis.
  - cbn [getProofPath_loop Root].
    destruct (nodesOf_height _ _ Hc) as [->|Hlt]; [|lia].
    cbn [ptr_eq]. rewrite Nat.eqb_refl. exists [], visited. now rewrite app_nil_r.
  - cbn [getProofPath_loop Root].
    destruct (ptr_eq (Some c) (Some root)) eqn:E.
    { apply (ptr_eq_root root Hwf c Hc) in E as ->.
      exists [], visited. now rewrite app_nil_r. }
    assert (Hne : c <> root).
    { intros ->. cbn [ptr_eq] in E. rewrite Nat.eqb_refl in E. discriminate. }
    destruct (parent_step root Hwf c Hc Hne)
      as (p & l & r & Hf & Hp & HL & HR & Hl & Hr & Hh & Hlr & Hhp & Hside).
    unfold findParent, findParentRecursive. cbn [Root]. rewrite Hf.
    assert (Hfresh : forall s, s ∈ nodesOf root -> height s = height c ->
                               mapGet visited (Hash s) = false).
    { intros s Hs Hhs. destruct (mapGet visited (Hash s)) eqn:Hv; [|reflexivity].
      destruct (Hvis _ Hv) as (x & Hx & Hxh & Hxlt).
      pose proof (Hsame x s Hx Hs Hxh). lia. }
    assert (Hnext : forall s, s ∈ nodesOf root -> height s = height c ->
                              visitedBelow root (<[Hash s := true]> visited) (height p)).
    { intros s Hs Hhs k Hk. apply mapGet_insert in Hk as [->|Hk].
      - exists s. repeat split; [assumption|].
        destruct Hside as [[_ <-]|[_ <-]]; lia.
      - destruct (Hvis _ Hk) as (x & Hx & Hxh & Hxlt). exists x. repeat split; try assumption.
        destruct Hside as [[_ <-]|[_ <-]]; lia. }
    unfold addSibling. rewrite HL, HR.
    destruct Hside as [[Hptr <-]|[Hptr <-]]; rewrite HL in Hptr; rewrite Hptr.
    + rewrite (Hfresh r Hr) by lia. cbn [negb].
      destruct (IH p (<[Hash r := true]> visited)
                  (acc ++ [mkProofNode (Hash r) false]) Hp)
        as (path & visited' & Hloop & Hfold); [lia | apply Hnext; [assumption | lia] |].
      exists (mkProofNode (Hash r) false :: path), visited'. split.
      * rewrite Hloop. now rewrite <- app_assoc.
      * cbn. cbn in Hfold. now rewrite <- Hh.
    + rewrite (Hfresh l Hl) by lia. cbn [negb].
      destruct (IH p (<[Hash l := true]> visited)
                  (acc ++ [mkProofNode (Hash l) true]) Hp)
        as (path & visited' & Hloop & Hfold); [lia | apply Hnext; [assumption | lia] |].
      exists (mkProofNode (Hash l) true :: path), visited'. split.
      * rewrite Hloop. now rewrite <- app_assoc.
      * cbn. cbn in Hfold. now rewrite <- Hh.
Qed.

End Fold.

(** ** No collision on the tree: equal hashes sit at equal heights *)

Lemma bytes_of_LEAF : bytes_of "LEAF:" = [x4c; x45; x41; x46; x3a].
Proof. reflexivity. Qed.

Lemma bytes_of_INTERNAL :
  bytes_of "INTERNAL:" = [x49; x4e; x54; x45; x52; x4e; x41; x4c; x3a].
Proof. reflexivity. Qed.

Lemma collisionFree_spec t :
  collisionFree t = true ->
  forall a b, a ∈ treeNodes t -> b ∈ treeNodes t ->
              Hash a = Hash b -> preimage a = preimage b.
Proof.
  unfold collisionFree. rewrite forallb_forall. intros H a b Ha Hb E.
  apply list_elem_of_In in Ha, Hb. specialize (H a Ha). rewrite forallb_forall in H.
  specialize (H b Hb). rewrite E, String.eqb_refl in H. now apply bytes_eqb_eq.
Qed.

Lemma sameHash_sameHeight root :
  wfNode root ->
  (forall a b, a ∈ nodesOf root -> b ∈ nodesOf root ->
               Hash a = Hash b -> preimage a = preimage b) ->
  forall a b, a ∈ nodesOf root -> b ∈ nodesOf root ->
              Hash a = Hash b -> height a = height b.
Proof.
  intros [Hshape _] Hcf a.
  induction a as [aa ha la ra ila da ba IHl IHr] using MerkleNode_induction.
  intros b Ha Hb E.
  pose proof (Hcf _ _ Ha Hb E) as Hpre.
  pose proof (Hshape _ Ha) as Sa. pose proof (Hshape _ Hb) as Sb.
  unfold shaped in Sa, Sb. unfold preimage in Hpre.
  rewrite (height_unfold b), (height_unfold (mkNode _ _ _ _ _ _ _)).
  cbn [Left Right IsLeaf Hash Data] in *.
  destruct la as [la|], ra as [ra|]; try tauto;
    destruct (Left b) as [lb|] eqn:HLb, (Right b) as [rb|] eqn:HRb; try tauto.
  - destruct Sa as (-> & _ & Hha), Sb as (Eb & _ & Hhb). rewrite Eb in Hpre.
    rewrite <- !app_assoc in Hpre. apply app_inv_head in Hpre.
    assert (Hla : la ∈ nodesOf root)
      by (apply (nodesOf_descend _ _ _ Ha); left; reflexivity).
    assert (Hlb : lb ∈ nodesOf root) by eauto with merkle.
    apply app_inj_1 in Hpre as [Hpre _].
    2:{ rewrite !length_bytes_of.
        now rewrite (shaped_hash_length _ (Hshape _ Hla)), (shaped_hash_length _ (Hshape _ Hlb)). }
    apply bytes_of_inj in Hpre.
    pose proof (IHl la eq_refl lb Hla Hlb Hpre). lia.
  - destruct Sa as (-> & _), Sb as (Eb & _). rewrite Eb in Hpre.
    rewrite bytes_of_LEAF, bytes_of_INTERNAL in Hpre. discriminate Hpre.
  - destruct Sa as (-> & _), Sb as (Eb & _). rewrite Eb in Hpre.
    rewrite bytes_of_LEAF, bytes_of_INTERNAL in Hpre. discriminate Hpre.
Qed.

(** ** The leaves [GenerateProof] finds *)

Lemma findLeaves_elem leaves leafHashes x :
  x ∈ findLeaves leaves leafHashes -> x ∈ leaves /\ Hash x ∈ leafHashes.
Proof.
  induction leafHashes as [|h rest IH]; cbn [findLeaves].
  - intros H. now apply elem_of_nil in H.
  - destruct (List.find _ leaves) as [leaf|] eqn:F.
    + rewrite elem_of_cons. intros [->|H].
      * apply find_some in F as [Hin Heq]. apply String.eqb_eq in Heq.
        split; [now apply list_elem_of_In|]. rewrite Heq. apply list_elem_of_here.
      * destruct (IH H). split; [assumption | now apply list_elem_of_further].
    + intros H. destruct (IH H). split; [assumption | now apply list_elem_of_further].
Qed.

Lemma findLeaves_none leaves leafHashes :
  (forall h, h ∈ leafHashes -> forall leaf, leaf ∈ leaves -> Hash leaf <> h) ->
  findLeaves leaves leafHashes = [].
Proof.
  induction leafHashes as [|h rest IH]; intros Hno; cbn [findLeaves]; [reflexivity|].
  destruct (List.find _ leaves) as [leaf|] eqn:F.
  - apply find_some in F as [Hin Heq]. apply String.eqb_eq in Heq.
    exfalso. apply (Hno h (list_elem_of_here _ _) leaf); [now apply list_elem_of_In | exact Heq].
  - apply IH. intros h' Hh'. apply Hno. now apply list_elem_of_further.
Qed.

Lemma findLeaves_some leaves leafHashes h leaf :
  h ∈ leafHashes -> leaf ∈ leaves -> Hash leaf = h ->
  findLeaves leaves leafHashes <> [].
Proof.
  induction leafHashes as [|h' rest IH]; intros Hh Hl E; cbn [findLeaves].
  - now apply elem_of_nil in Hh.
  - destruct (List.find _ leaves) as [leaf'|] eqn:F; [discriminate|].
    apply elem_of_cons in Hh as [->|Hh]; [|now apply IH].
    exfalso. apply list_elem_of_In in Hl.
    pose proof (find_none _ _ F leaf Hl) as Hn. cbn in Hn.
    rewrite E, String.eqb_refl in Hn. discriminate.
Qed.

Lemma findLeaves_filter leaves leafHashes :
  findLeaves leaves leafHashes = findLeaves leaves (List.filter (hasLeaf leaves) leafHashes).
Proof.
  induction leafHashes as [|h rest IH]; cbn [findLeaves List.filter]; [reflexivity|].
  destruct (List.find _ leaves) as [leaf|] eqn:F.
  - assert (Hh : hasLeaf leaves h = true).
    { apply find_some in F as [Hin Heq]. apply existsb_exists. eauto. }
    rewrite Hh. cbn [findLeaves]. now rewrite F, IH.
  - assert (Hh : hasLeaf leaves h = false).
    { destruct (hasLeaf leaves h) eqn:Hh; [|reflexivity].
      apply existsb_exists in Hh as (x & Hx & Hxe).
      pose proof (find_none _ _ F x Hx) as Hn. cbn in Hn. congruence. }
    now rewrite Hh.
Qed.

Lemma collectPaths_terminates root leaves rh leafNodes :
  wfNode root ->
  (forall leaf, leaf ∈ leafNodes -> leaf ∈ nodesOf root) ->
  forall visited acc,
    exists proofPath,
      collectPaths (mkTree (Some root) leaves rh) leafNodes visited acc = Some proofPath.
Proof.
  intros Hwf. induction leafNodes as [|leaf rest IH]; intros Hin visited acc;
    cbn [collectPaths]; [eauto|].
  unfold getProofPath, treeHeight. cbn [Root].
  destruct (getProofPath_loop_terminates root Hwf leaves rh (height root) leaf visited [])
    as [[path visited'] ->]; [apply Hin, list_elem_of_here | lia |].
  apply IH. intros x Hx. apply Hin. now apply list_elem_of_further.
Qed.

(** ** The multi-leaf reconstruction never reads the proof *)

Lemma mapGet_fold_insert {A} (key : A -> string) (l : list A) (m : gmap string bool) h :
  mapGet m h = true \/ (exists x, x ∈ l /\ key x = h) ->
  mapGet (fold_left (fun (m : gmap string bool) x => <[key x := true]> m) l m) h = true.
Proof.
  revert m. induction l as [|x l IH]; intros m; cbn [fold_left].
  - intros [H|(x & Hx & _)]; [exact H | now apply elem_of_nil in Hx].
  - intros H. apply IH. destruct H as [H|(y & Hy & Hk)].
    + left. unfold mapGet in *. destruct (decide (key x = h)) as [->|Hne].
      * now rewrite lookup_insert_eq.
      * now rewrite lookup_insert_ne.
    + apply elem_of_cons in Hy as [->|Hy]; [|right; eauto].
      left. unfold mapGet. now rewrite Hk, lookup_insert_eq.
Qed.

Lemma reconstructRootMultiple_unfold leafHashes proofPath :
  reconstructRootMultiple leafHashes proofPath =
  match reduceLevels (length (sortStrings leafHashes)) (sortStrings leafHashes) with
  | [h] => h
  | _ => ""
  end.
Proof.
  unfold reconstructRootMultiple.
  set (avail := fold_left _ proofPath _).
  assert (Hf : List.filter (fun h => mapGet avail h) leafHashes = leafHashes).
  { apply forallb_filter_id, forallb_forall. intros h Hh. apply list_elem_of_In in Hh.
    unfold avail. apply (mapGet_fold_insert ProofHash). left.
    apply (mapGet_fold_insert (fun h : string => h)). right. eauto. }
  now rewrite Hf.
Qed.

(** With two leaf hashes or more the verifier never reads the proof:
    any two proofs get the same verdict. *)
Lemma VerifyProof_multi_ignores_proof rootHash leafHashes proof1 proof2 :
  2 <= length leafHashes ->
  VerifyProof rootHash leafHashes proof1 = VerifyProof rootHash leafHashes proof2.
Proof.
  intros Hlen. unfold VerifyProof. destruct (Nat.eqb (length leafHashes) 0); [reflexivity|].
  pose proof (sortStrings_length leafHashes) as Hs.
  destruct (sortStrings leafHashes) as [|a [|b rest]] eqn:E; cbn [length] in Hs; try lia.
  cbn [reconstructRoot]. now rewrite !reconstructRootMultiple_unfold.
Qed.

(** * The claims *)

(** ** Tree builder *)

(** C6. A tree of exactly three blocks with leaf hashes [h0], [h1],
    [h2] has the root hash
    [HashConcat (HashConcat h0 h1) (HashConcat h2 h2)]: the odd node of
    a level is paired with a copy of itself. *)
Theorem three_block_root_hash (b0 b1 b2 : DataBlock) :
  let h0 := HashData (EncryptedData b0) in
  let h1 := HashData (EncryptedData b1) in
  let h2 := HashData (EncryptedData b2) in
  exists t,
    NewMerkleTree [b0; b1; b2] = Ok t /\
    RootHash t = HashConcat (HashConcat h0 h1) (HashConcat h2 h2).
Proof. intros h0 h1 h2. eexists. split; reflexivity. Qed.

(** C7. [NewMerkleTree] returns a tree and no error for every list of
    blocks; for the empty list the tree has no root and the empty root
    hash; for a single block the root hash is [HashData] of its payload. *)
Theorem NewMerkleTree_never_fails :
  (forall blocks, exists t, NewMerkleTree blocks = Ok t) /\
  (exists t, NewMerkleTree [] = Ok t /\ Root t = None /\ RootHash t = "") /\
  (forall X, exists t,
      NewMerkleTree [X] = Ok t /\ RootHash t = HashData (EncryptedData X)).
Proof.
  split; [|split].
  - intros blocks. unfold NewMerkleTree. destruct (Nat.eqb (length blocks) 0); eauto.
  - eexists. repeat split.
  - intros X. eexists. split; reflexivity.
Qed.

(** C9. The tree [NewMerkleTree] returns for a block list [L] has the
    empty [RootHash] exactly when [L] is empty; otherwise it has a root
    node and [RootHash] is the hash stored in it. *)
Theorem RootHash_invariant (L : list DataBlock) :
  exists t,
    NewMerkleTree L = Ok t /\
    (RootHash t = "" <-> L = []) /\
    (L <> [] -> exists root, Root t = Some root /\ RootHash t = Hash root).
Proof.
  destruct L as [|b bs] eqn:E.
  - eexists. split; [reflexivity|]. split; [split; reflexivity | congruence].
  - rewrite <- E. assert (Hne : L <> []) by (rewrite E; discriminate).
    destruct (NewMerkleTree_spec L Hne) as (root & Hnew & [Hshape _] & _).
    eexists. split; [exact Hnew|]. cbn [RootHash Root]. split; [|eauto].
    split; [|intros HL; congruence].
    intros Hempty. exfalso. now apply (shaped_hash_nonempty root (Hshape _ (nodesOf_self _))).
Qed.

(** ** Proof generator and verifier *)

(** C2. For a tree built from a list of blocks and any one of its
    leaves, [GenerateProof] on that leaf's hash returns a proof and
    [VerifyProof] accepts it against the tree's root hash. The tree is
    taken free of SHA-256 collisions ([collisionFree]: two of its nodes
    with the same hash were hashed from the same bytes); [getProofPath]
    skips a sibling whose hash it has seen, so a collision between the
    siblings on the leaf's path would drop a step of the proof. *)
Theorem single_leaf_round_trip (blocks : list DataBlock) (t : MerkleTree)
    (leaf : MerkleNode) :
  NewMerkleTree blocks = Ok t ->
  leaf ∈ Leaves t ->
  collisionFree t = true ->
  exists proof,
    GenerateProof t [Hash leaf] = Some (Ok proof) /\
    VerifyProof (RootHash t) [Hash leaf] proof = Ok true.
Proof.
  intros Hnew Hleaf Hcf.
  assert (Hne : blocks <> []).
  { intros ->. injection Hnew as <-. now apply elem_of_nil in Hleaf. }
  destruct (NewMerkleTree_spec blocks Hne) as (root & Hnew' & Hwf & Hcov & _).
  rewrite Hnew' in Hnew. injection Hnew as <-. cbn [Leaves RootHash] in *.
  unfold GenerateProof. cbn [Root Leaves findLeaves].
  destruct (List.find _ (makeLeaves 0 blocks)) as [leaf'|] eqn:F.
  2:{ apply list_elem_of_In in Hleaf. pose proof (find_none _ _ F leaf Hleaf) as Hn.
      cbn in Hn. rewrite String.eqb_refl in Hn. discriminate. }
  apply find_some in F as [Hin Heq]. apply String.eqb_eq in Heq.
  apply list_elem_of_In in Hin. cbn [length Nat.eqb collectPaths].
  unfold getProofPath, treeHeight. cbn [Root].
  destruct (getProofPath_loop_folds root Hwf
              (sameHash_sameHeight root Hwf (collisionFree_spec _ Hcf))
              (makeLeaves 0 blocks) (Hash root) (height root) leaf' ∅ [] (Hcov _ Hin))
    as (path & visited' & Hloop & Hfold).
  - lia.
  - intros k Hk. unfold mapGet in Hk. rewrite lookup_empty in Hk. discriminate.
  - rewrite Hloop. cbn [app collectPaths]. exists path. split; [reflexivity|].
    unfold VerifyProof. cbn [length Nat.eqb].
    change (sortStrings [Hash leaf]) with [Hash leaf]. cbn [reconstructRoot].
    now rewrite <- Heq, Hfold, String.eqb_refl.
Qed.

(** C10. The verdict of [VerifyProof] does not depend on the order in
    which the leaf hashes are supplied: a list of leaf hashes (empty or
    not) and any permutation of it give the same result, for every root
    hash and every proof. *)
Theorem VerifyProof_permutation (rootHash : string) (proofPath : list ProofNode)
    (L P : list string) :
  Permutation L P ->
  VerifyProof rootHash L proofPath = VerifyProof rootHash P proofPath.
Proof.
  intros Hperm. unfold VerifyProof.
  rewrite (Permutation_length Hperm). now rewrite (sortStrings_perm L P Hperm).
Qed.

Lemma VerifyProof_permutation_witness :
  VerifyProof "r" ["b"; "a"] [] = VerifyProof "r" ["a"; "b"] [].
Proof. apply (VerifyProof_permutation "r" [] ["b"; "a"] ["a"; "b"]). apply perm_swap. Defined.

Lemma single_leaf_round_trip_witness :
  exists proof,
    GenerateProof tree4 [Hash (leaf4 2)] = Some (Ok proof) /\
    VerifyProof (RootHash tree4) [Hash (leaf4 2)] proof = Ok true.
Proof.
  apply (single_leaf_round_trip blocks4 tree4 (leaf4 2)).
  - vm_compute. reflexivity.
  - apply list_elem_of_In. vm_compute. tauto.
  - vm_compute. reflexivity.
Defined.

(** The hashes of the four-block tree of the tests. *)
Example tree4_hashes :
  map Hash (Leaves tree4) =
    [ "b59cea5c2e5f75bb5116b892e9949fb2f4e8deb7ae4dac879c0765b6ea337cb1";
      "326c66827f0bbee6f00096406acbb552f5ad7f8d2bc4020aee1a690b9213f1db";
      "98778cd56a4a438268e6e4e2aae50d09dc85a21619c478ecca16b9346cb143db";
      "283c64119fc270a30769a5b9ba89f19c4f6518433e83e6cb2dc968053923249b" ] /\
  RootHash tree4 = "69c591adcbbe4a6556afb8d21eee765d96d429956111af1e8b7fed869f510af9" /\
  reconstructRoot (sortStrings [Hash (leaf4 0); Hash (leaf4 2)]) [] =
    HashConcat (Hash (leaf4 2)) (Hash (leaf4 0)).
Proof. repeat split; vm_compute; reflexivity. Qed.

(** C1 fails on the code: the request of the test [TestGenerateProof]
    (leaves 0 and 2 of the four-block tree) yields a proof that
    [VerifyProof] rejects against the tree's own root hash. *)
Theorem multi_leaf_round_trip_fails :
  NewMerkleTree blocks4 = Ok tree4 /\
  GenerateProof tree4 [Hash (leaf4 0); Hash (leaf4 2)] =
    Some (Ok [ mkProofNode (Hash (leaf4 1)) false;
               mkProofNode (HashConcat (Hash (leaf4 2)) (Hash (leaf4 3))) false;
               mkProofNode (Hash (leaf4 3)) false;
               mkProofNode (HashConcat (Hash (leaf4 0)) (Hash (leaf4 1))) true ]) /\
  forall proof,
    VerifyProof (RootHash tree4) [Hash (leaf4 0); Hash (leaf4 2)] proof = Ok false.
Proof.
  split; [vm_compute; reflexivity|]. split; [vm_compute; reflexivity|].
  intros proof.
  rewrite (VerifyProof_multi_ignores_proof _ _ proof []) by (cbn; lia).
  vm_compute. reflexivity.
Qed.

(** The run of [examples/proof_debug.go]: a proof for all three leaves
    of a three-block tree is rejected as well. *)
Example proof_debug_all_leaves :
  let t := treeOf (firstn 3 blocks4) in
  forall proof, VerifyProof (RootHash t) (map Hash (Leaves t)) proof = Ok false.
Proof.
  intros t proof.
  rewrite (VerifyProof_multi_ignores_proof _ _ proof []) by (vm_compute; lia).
  vm_compute. reflexivity.
Qed.

(** ** The differ *)

(** The equation of the Go function, nil cases included. *)
Lemma diffNodes_unfold node1 node2 differences :
  diffNodes node1 node2 differences =
  match node1, node2 with
  | None, None => differences
  | Some n1, None => differences ++ [mkDiffNode (Hash n1) (IsLeaf n1)]
  | None, Some n2 => differences ++ [mkDiffNode (Hash n2) (IsLeaf n2)]
  | Some n1, Some n2 =>
      if negb (String.eqb (Hash n1) (Hash n2))
      then
        if IsLeaf n1 && IsLeaf n2
        then differences ++ [mkDiffNode (Hash n1) true; mkDiffNode (Hash n2) true]
        else diffNodes (Right n1) (Right n2) (diffNodes (Left n1) (Left n2) differences)
      else differences
  end.
Proof.
  destruct node1 as [[a1 h1 l1 r1 il1 d1 b1]|], node2 as [n2|]; reflexivity.
Qed.

(** [TestDiffTrees]: no difference between two trees of the same
    blocks, two leaves reported when the second block differs. *)
Example DiffTrees_identical : DiffTrees (Some tree2) (Some (treeOf blocks2)) = Ok [].
Proof. vm_compute. reflexivity. Qed.

Example DiffTrees_different :
  DiffTrees (Some tree2)
    (Some (treeOf [block "1" "data1" "table1"; block "3" "data3" "table1"])) =
  Ok [ mkDiffNode (HashData (bytes_of "data2")) true;
       mkDiffNode (HashData (bytes_of "data3")) true ].
Proof. vm_compute. reflexivity. Qed.

(** ** Claims on errors and on the differ *)

Lemma VerifyProof_nonempty rootHash leafHashes proofPath :
  leafHashes <> [] ->
  exists verdict, VerifyProof rootHash leafHashes proofPath = Ok verdict.
Proof.
  intros Hne. unfold VerifyProof. destruct leafHashes; [congruence|]. cbn. eauto.
Qed.

(** C4 fails on the code: the structurally wrong proof of [TestVerifyProof]
    gets the verdict [false] and no error, and no root hash, non-empty
    leaf list and proof make [VerifyProof] return an error. *)
Lemma VerifyProof_reports_no_malformed_proof :
  VerifyProof (RootHash tree4) [Hash (leaf4 0)] [mkProofNode "invalid_hash" true] = Ok false /\
  ~ (exists rootHash leafHashes proofPath msg,
        leafHashes <> [] /\ VerifyProof rootHash leafHashes proofPath = Err msg).
Proof.
  split; [vm_compute; reflexivity|].
  intros (rootHash & leafHashes & proofPath & msg & Hne & E).
  destruct (VerifyProof_nonempty rootHash leafHashes proofPath Hne) as [v Hv]. congruence.
Qed.

(** C4, amended. [VerifyProof] returns an error exactly when the list of
    leaf hashes is empty; for a non-empty list it returns a verdict for
    every root hash and every proof, well-formed or not. *)
Theorem VerifyProof_error_only_on_empty (rootHash : string) (leafHashes : list string)
    (proofPath : list ProofNode) :
  (leafHashes = [] ->
   VerifyProof rootHash leafHashes proofPath = Err "no leaf hashes provided") /\
  (leafHashes <> [] ->
   exists verdict, VerifyProof rootHash leafHashes proofPath = Ok verdict).
Proof. split; [now intros -> | apply VerifyProof_nonempty]. Qed.

(** C3 fails on the code: a request that holds one leaf hash of the tree
    and one string that is no leaf hash gets a proof, not an error. *)
Lemma GenerateProof_skips_unmatched_hash :
  NewMerkleTree blocks4 = Ok tree4 /\
  ~ In "bogus" (map Hash (Leaves tree4)) /\
  GenerateProof tree4 [Hash (leaf4 0); "bogus"] =
    Some (Ok [ mkProofNode (Hash (leaf4 1)) false;
               mkProofNode (HashConcat (Hash (leaf4 2)) (Hash (leaf4 3))) false ]).
Proof.
  split; [vm_compute; reflexivity|]. split; [|vm_compute; reflexivity].
  vm_compute. intuition discriminate.
Qed.

(** C3, amended. On a tree built by [NewMerkleTree], [GenerateProof]
    fails with "empty tree" when the tree has no root; otherwise it
    fails with "no matching leaf nodes found" when no requested hash is
    the hash of a leaf (so also on the empty request); otherwise it
    returns a proof. Requested hashes without a leaf are skipped: the
    result is that of the request without them. *)
Theorem GenerateProof_outcomes (blocks : list DataBlock) (t : MerkleTree)
    (leafHashes : list string) :
  NewMerkleTree blocks = Ok t ->
  (Root t = None -> GenerateProof t leafHashes = Some (Err "empty tree")) /\
  (Root t <> None ->
   (forall h, h ∈ leafHashes -> hasLeaf (Leaves t) h = false) ->
   GenerateProof t leafHashes = Some (Err "no matching leaf nodes found")) /\
  (Root t <> None ->
   (exists h, h ∈ leafHashes /\ hasLeaf (Leaves t) h = true) ->
   exists proof, GenerateProof t leafHashes = Some (Ok proof)) /\
  GenerateProof t leafHashes =
    GenerateProof t (List.filter (hasLeaf (Leaves t)) leafHashes).
Proof.
  intros Hnew. split; [|split; [|split]].
  - intros HR. unfold GenerateProof. now rewrite HR.
  - intros HR Hno. unfold GenerateProof. destruct (Root t); [|congruence].
    rewrite findLeaves_none; [reflexivity|].
    intros h Hh leaf Hleaf E. specialize (Hno h Hh).
    assert (hasLeaf (Leaves t) h = true); [|congruence].
    apply existsb_exists. exists leaf. split; [now apply list_elem_of_In|].
    now apply String.eqb_eq.
  - intros HR (h & Hh & Hhas).
    assert (Hne : blocks <> []).
    { intros ->. injection Hnew as <-. now apply HR. }
    destruct (NewMerkleTree_spec blocks Hne) as (root & Hnew' & Hwf & Hcov & _).
    rewrite Hnew' in Hnew. injection Hnew as <-. cbn [Leaves Root] in *.
    unfold GenerateProof. cbn [Root Leaves].
    apply existsb_exists in Hhas as (leaf & Hleaf & E). apply String.eqb_eq in E.
    apply list_elem_of_In in Hleaf.
    pose proof (findLeaves_some _ _ h leaf Hh Hleaf E) as Hfound.
    destruct (findLeaves (makeLeaves 0 blocks) leafHashes) as [|x xs] eqn:F; [congruence|].
    cbn [length Nat.eqb].
    destruct (collectPaths_terminates root (makeLeaves 0 blocks) (Hash root) (x :: xs) Hwf)
      with (visited := (∅ : gmap string bool)) (acc := @nil ProofNode) as [proof ->]; [|eauto].
    intros y Hy. apply Hcov. rewrite <- F in Hy. now apply findLeaves_elem in Hy.
  - unfold GenerateProof. now rewrite <- findLeaves_filter.
Qed.

Lemma GenerateProof_outcomes_witness :
  (Root tree4 = None -> GenerateProof tree4 [Hash (leaf4 0); "bogus"] = Some (Err "empty tree")) /\
  (Root tree4 <> None ->
   (forall h, h ∈ [Hash (leaf4 0); "bogus"] -> hasLeaf (Leaves tree4) h = false) ->
   GenerateProof tree4 [Hash (leaf4 0); "bogus"] = Some (Err "no matching leaf nodes found")) /\
  (Root tree4 <> None ->
   (exists h, h ∈ [Hash (leaf4 0); "bogus"] /\ hasLeaf (Leaves tree4) h = true) ->
   exists proof, GenerateProof tree4 [Hash (leaf4 0); "bogus"] = Some (Ok proof)) /\
  GenerateProof tree4 [Hash (leaf4 0); "bogus"] =
    GenerateProof tree4 (List.filter (hasLeaf (Leaves tree4)) [Hash (leaf4 0); "bogus"]).
Proof.
  apply (GenerateProof_outcomes blocks4 tree4 [Hash (leaf4 0); "bogus"]).
  vm_compute. reflexivity.
Defined.

(** C5 fails on the code: against a tree without root, the two-block
    tree is reported as one descriptor, that of its root, which is not a
    leaf and has the hash of neither leaf. *)
Lemma DiffTrees_empty_reports_no_leaf :
  Root tree0 = None /\
  NewMerkleTree blocks2 = Ok tree2 /\
  length (Leaves tree2) = 2 /\
  DiffTrees (Some tree0) (Some tree2) = Ok [mkDiffNode (RootHash tree2) false] /\
  Forall (fun leaf => Hash leaf <> RootHash tree2) (Leaves tree2).
Proof.
  split; [reflexivity|]. split; [vm_compute; reflexivity|].
  split; [vm_compute; reflexivity|]. split; [vm_compute; reflexivity|].
  vm_compute. repeat constructor; discriminate.
Qed.

(** C5, amended. When one tree has no root and the other was built from
    a non-empty list of blocks, [DiffTrees] reports exactly one
    descriptor, that of the root node of the non-empty tree: its hash is
    the root hash, and it is marked as a leaf only when the tree has a
    single block. *)
Theorem DiffTrees_empty_reports_root (blocks : list DataBlock) (e t : MerkleTree) :
  Root e = None -> NewMerkleTree blocks = Ok t -> blocks <> [] ->
  DiffTrees (Some e) (Some t) = Ok [mkDiffNode (RootHash t) (Nat.eqb (length blocks) 1)] /\
  DiffTrees (Some t) (Some e) = Ok [mkDiffNode (RootHash t) (Nat.eqb (length blocks) 1)].
Proof.
  intros He Hnew Hne.
  destruct (NewMerkleTree_spec blocks Hne) as (root & Hnew' & _ & _ & Hleaf).
  rewrite Hnew' in Hnew. injection Hnew as <-.
  unfold DiffTrees, diffNodes. rewrite He. cbn [Root RootHash diffNil].
  rewrite <- Hleaf. split; [reflexivity|]. now destruct root.
Qed.

Lemma DiffTrees_empty_reports_root_witness :
  DiffTrees (Some tree0) (Some tree2) = Ok [mkDiffNode (RootHash tree2) (Nat.eqb (length blocks2) 1)] /\
  DiffTrees (Some tree2) (Some tree0) = Ok [mkDiffNode (RootHash tree2) (Nat.eqb (length blocks2) 1)].
Proof.
  apply (DiffTrees_empty_reports_root blocks2 tree0 tree2).
  - reflexivity.
  - vm_compute. reflexivity.
  - discriminate.
Defined.

(** * Further properties *)

(** ** Hexadecimal round trips *)

Lemma fromHexChar_hexdigit n : (n < 16)%N -> fromHexChar (hexdigit n) = Some n.
Proof.
  intros H. destruct n as [|p]; [reflexivity|].
  do 4 (destruct p as [p|p|]; try reflexivity); exfalso; lia.
Qed.

Lemma byte_nibbles b :
  byteOfN (N.lor (N.shiftl (N.shiftr (Byte.to_N b) 4) 4) (N.land (Byte.to_N b) 15)) = b.
Proof. destruct b; reflexivity. Qed.

Lemma nibble_bounds b :
  (N.shiftr (Byte.to_N b) 4 < 16)%N /\ (N.land (Byte.to_N b) 15 < 16)%N.
Proof. destruct b; split; reflexivity. Qed.

Lemma DecodeString_EncodeToString data : DecodeString (EncodeToString data) = (data, None).
Proof.
  induction data as [|b rest IH]; [reflexivity|].
  destruct (nibble_bounds b) as [Hhi Hlo].
  cbn [EncodeToString DecodeString].
  rewrite (fromHexChar_hexdigit _ Hhi), (fromHexChar_hexdigit _ Hlo), IH.
  now rewrite byte_nibbles.
Qed.

(** X1. Decoding what [HashToString] wrote gives the bytes back, with
    no error. *)
Theorem StringToHash_HashToString (data : list byte) :
  StringToHash (HashToString data) = (data, None).
Proof. apply DecodeString_EncodeToString. Qed.

Lemma fromHexChar_spec c a :
  fromHexChar c = Some a -> (a < 16)%N /\ hexdigit a = lowerChar c.
Proof.
  destruct c as [[] [] [] [] [] [] [] []]; vm_compute; intros [= <-]; split; reflexivity.
Qed.

Lemma nibbles_of_byte a b :
  (a < 16)%N -> (b < 16)%N ->
  N.shiftr (Byte.to_N (byteOfN (N.lor (N.shiftl a 4) b))) 4 = a /\
  N.land (Byte.to_N (byteOfN (N.lor (N.shiftl a 4) b))) 15 = b.
Proof.
  intros Ha Hb.
  assert (Ea : In a (map N.of_nat (List.seq 0 16))).
  { apply in_map_iff. exists (N.to_nat a). split; [lia|]. apply in_seq. lia. }
  assert (Eb : In b (map N.of_nat (List.seq 0 16))).
  { apply in_map_iff. exists (N.to_nat b). split; [lia|]. apply in_seq. lia. }
  cbn in Ea, Eb.
  repeat (destruct Ea as [<-|Ea]; [repeat (destruct Eb as [<-|Eb]; [split; reflexivity|]); destruct Eb|]).
  destruct Ea.
Qed.

Lemma string_pair_ind (P : string -> Prop) :
  P "" -> (forall c, P (String c "")) ->
  (forall p q s, P s -> P (String p (String q s))) -> forall s, P s.
Proof.
  intros H0 H1 H2. fix IH 1. intros [|p [|q s]]; [exact H0 | apply H1 | apply H2, IH].
Qed.

(** X2. [StringToHash] returns no error exactly on the strings of even
    length made of hexadecimal digits of either case; what it returns
    then encodes back to the string in lower case. *)
Theorem StringToHash_accepts (hashStr : string) :
  (snd (StringToHash hashStr) = None <->
   Nat.even (String.length hashStr) = true /\ allChars isHexDigit hashStr = true) /\
  (snd (StringToHash hashStr) = None ->
   HashToString (fst (StringToHash hashStr)) = lowerString hashStr).
Proof.
  unfold StringToHash, HashToString.
  induction hashStr as [| c | p q s [IHiff IHenc]] using string_pair_ind.
  - split; [split; [now split | reflexivity] | reflexivity].
  - cbn [DecodeString]. destruct (fromHexChar c); cbn; split;
      try (split; [discriminate | intros [[=] _]]); discriminate.
  - cbn [DecodeString String.length allChars lowerString]. unfold isHexDigit at 1 2.
    destruct (fromHexChar p) as [a|] eqn:Ep; [|cbn; split; [split; [discriminate | intros [_ [=]]] | discriminate]].
    destruct (fromHexChar q) as [b|] eqn:Eq; [|cbn; split; [split; [discriminate | intros [_ [=]]] | discriminate]].
    destruct (DecodeString s) as [bs err]. cbn [fst snd andb] in *.
    split; [exact IHiff|]. intros Herr. cbn [EncodeToString].
    destruct (fromHexChar_spec _ _ Ep) as [Ha Hla], (fromHexChar_spec _ _ Eq) as [Hb Hlb].
    destruct (nibbles_of_byte a b Ha Hb) as [-> ->].
    now rewrite Hla, Hlb, (IHenc Herr).
Qed.

(** ** The XOR cipher *)

Lemma lxor_byte_bound x y : (x <= 255)%N -> (y <= 255)%N -> (N.lxor x y <= 255)%N.
Proof.
  intros Hx Hy.
  assert (Hall : forallb (fun a => forallb (fun b => N.leb (N.lxor a b) 255)
                                      (map N.of_nat (List.seq 0 256)))
                   (map N.of_nat (List.seq 0 256)) = true) by (vm_compute; reflexivity).
  rewrite forallb_forall in Hall.
  assert (Hin : forall n, (n <= 255)%N -> In n (map N.of_nat (List.seq 0 256))).
  { intros n Hn. apply in_map_iff. exists (N.to_nat n). split; [lia|]. apply in_seq. lia. }
  specialize (Hall x (Hin x Hx)). rewrite forallb_forall in Hall.
  specialize (Hall y (Hin y Hy)). now apply N.leb_le.
Qed.

Lemma to_N_xorByte a b : Byte.to_N (xorByte a b) = N.lxor (Byte.to_N a) (Byte.to_N b).
Proof.
  unfold xorByte, byteOfN.
  destruct (Byte.of_N (N.lxor (Byte.to_N a) (Byte.to_N b))) as [c|] eqn:E.
  - now apply Byte.to_of_N.
  - apply Byte.of_N_None_iff in E.
    pose proof (lxor_byte_bound _ _ (Byte.to_N_bounded a) (Byte.to_N_bounded b)). lia.
Qed.

Lemma xorByte_involutive a k : xorByte (xorByte a k) k = a.
Proof.
  assert (E : Byte.to_N (xorByte (xorByte a k) k) = Byte.to_N a).
  { rewrite !to_N_xorByte, N.lxor_assoc, N.lxor_nilpotent. apply N.lxor_0_r. }
  apply (f_equal Byte.of_N) in E. rewrite !Byte.of_to_N in E. now injection E.
Qed.

Lemma xorFrom_nonempty key : key <> [] ->
  forall data i, exists out,
    xorFrom key i data = Some out /\ length out = length data /\
    xorFrom key i out = Some data.
Proof.
  intros Hkey. assert (Hlen : Nat.eqb (length key) 0 = false).
  { apply Nat.eqb_neq. destruct key; [congruence | cbn; lia]. }
  induction data as [|d rest IH]; intros i; [exists []; now repeat split|].
  cbn [xorFrom]. rewrite Hlen.
  destruct (nth_error key (i mod length key)) as [k|] eqn:Ek.
  2:{ apply nth_error_None in Ek. apply Nat.eqb_neq in Hlen.
      pose proof (Nat.mod_upper_bound i (length key) Hlen). lia. }
  destruct (IH (S i)) as (out & -> & Hl & Hback).
  exists (xorByte d k :: out). cbn [length xorFrom]. rewrite Hlen, Ek, Hback, Hl.
  now rewrite xorByte_involutive.
Qed.

(** X3. With a non-empty key, [encrypt] returns as many bytes as it is
    given, and [decrypt] (the same XOR) gives the data back. *)
Theorem decrypt_encrypt (encryptionKey data : list byte) :
  encryptionKey <> [] ->
  exists encrypted,
    encrypt encryptionKey data = Some (Ok encrypted) /\
    length encrypted = length data /\
    decrypt encryptionKey encrypted = Some (Ok data).
Proof.
  intros Hkey. unfold encrypt, decrypt.
  destruct (xorFrom_nonempty encryptionKey Hkey data 0) as (out & E & Hl & Hback).
  rewrite E. exists out. now rewrite Hback.
Qed.

Lemma decrypt_encrypt_witness :
  exists encrypted,
    encrypt [x6b; x65; x79] (bytes_of "Test data for encryption") = Some (Ok encrypted) /\
    length encrypted = length (bytes_of "Test data for encryption") /\
    decrypt [x6b; x65; x79] encrypted = Some (Ok (bytes_of "Test data for encryption")).
Proof.
  apply (decrypt_encrypt [x6b; x65; x79] (bytes_of "Test data for encryption")).
  discriminate.
Defined.

(** X4. [encrypt] panics exactly when the key is empty and the data is
    not; in every other case it returns a slice, and it never returns
    an error. *)
Theorem encrypt_panics_on_empty_key (encryptionKey data : list byte) :
  (encrypt encryptionKey data = None <-> encryptionKey = [] /\ data <> []) /\
  (forall msg, encrypt encryptionKey data <> Some (Err msg)).
Proof.
  split.
  - destruct encryptionKey as [|k key].
    + destruct data as [|d rest]; cbn.
      * split; [discriminate | intros [_ H]; congruence].
      * split; [intros _; split; [reflexivity | discriminate] | reflexivity].
    + destruct (xorFrom_nonempty (k :: key) ltac:(discriminate) data 0) as (out & E & _).
      unfold encrypt. rewrite E. split; [discriminate | intros [[=] _]].
  - intros msg. unfold encrypt. destruct (xorFrom encryptionKey 0 data); discriminate.
Qed.

(** ** The root hash, level by level *)

Lemma padOdd_cons2 x y (l : list MerkleNode) : padOdd (x :: y :: l) = x :: y :: padOdd l.
Proof.
  unfold padOdd. cbn [length]. rewrite Nat.odd_succ, Nat.even_succ.
  destruct (Nat.odd (length l)) eqn:Hodd; [|reflexivity].
  destruct l as [|z l']; [discriminate Hodd|].
  cbn [last]. now destruct (last (z :: l')).
Qed.

Lemma makeParents_hashes nodes : forall next,
  map Hash (makeParents next (padOdd nodes)) = combineLevel (map Hash nodes).
Proof.
  induction nodes as [| x | x y l IH] using list_pair_ind; intros next;
    [reflexivity | reflexivity |].
  rewrite padOdd_cons2. cbn [makeParents map combineLevel Hash]. now rewrite IH.
Qed.

Lemma buildTree_fuel_levels fuel : forall next nodes,
  length nodes <= fuel -> nodes <> [] ->
  exists root,
    buildTree_fuel fuel next nodes = Some root /\
    reduceLevels fuel (map Hash nodes) = [Hash root].
Proof.
  induction fuel as [|fuel IH]; intros next nodes Hlen Hne.
  - destruct nodes; [congruence | cbn in Hlen; lia].
  - destruct nodes as [|a [|b rest]]; [congruence | cbn; eauto |].
    set (nodes := a :: b :: rest) in *.
    destruct (IH (next + length (makeParents next (padOdd nodes)))
                (makeParents next (padOdd nodes))) as (root & Hb & Hr).
    + rewrite makeParents_length. destruct (padOdd_length nodes) as [Hpl _].
      halves (length nodes). halves (length (padOdd nodes)).
      subst nodes. cbn [length] in *. lia.
    + intros E. pose proof (makeParents_length next (padOdd nodes)) as Hl.
      rewrite E in Hl. cbn [length] in Hl. destruct (padOdd_length nodes) as [Hpl _].
      halves (length (padOdd nodes)). subst nodes. cbn [length] in *. lia.
    + exists root. split; [exact Hb|].
      rewrite makeParents_hashes in Hr. subst nodes. exact Hr.
Qed.

Lemma makeLeaves_hashes blocks : forall next,
  map Hash (makeLeaves next blocks) = map (fun b => HashData (EncryptedData b)) blocks.
Proof.
  induction blocks as [|b bs IH]; intros next; [reflexivity|].
  cbn [makeLeaves map Hash]. now rewrite IH.
Qed.

Lemma NewMerkleTree_levels blocks :
  exists t,
    NewMerkleTree blocks = Ok t /\
    map Hash (Leaves t) = map (fun b => HashData (EncryptedData b)) blocks /\
    RootHash t = match levelRoot (map Hash (Leaves t)) with
                 | [h] => h
                 | _ => ""
                 end.
Proof.
  unfold NewMerkleTree. destruct blocks as [|b bs] eqn:Eb.
  - eexists. repeat split.
  - rewrite <- Eb. assert (Hlen : Nat.eqb (length blocks) 0 = false) by now rewrite Eb.
    rewrite Hlen. unfold buildTree.
    destruct (buildTree_fuel_levels (length (makeLeaves 0 blocks))
                (length (makeLeaves 0 blocks)) (makeLeaves 0 blocks))
      as (root & Hb & Hr); [lia | now rewrite Eb |].
    rewrite Hb. eexists. split; [reflexivity|]. cbn [Leaves RootHash].
    split; [apply makeLeaves_hashes|].
    unfold levelRoot. rewrite length_map. now rewrite Hr.
Qed.

(** X5. The root hash of a tree is what the level-by-level pairing of
    the verifier ([combineLevel], repeated until one hash is left)
    computes from the hashes of the payloads taken in the order of the
    blocks; for the empty list it is the empty string. *)
Theorem RootHash_is_level_root (blocks : list DataBlock) :
  exists t,
    NewMerkleTree blocks = Ok t /\
    RootHash t =
      match levelRoot (map (fun b => HashData (EncryptedData b)) blocks) with
      | [h] => h
      | _ => ""
      end.
Proof.
  destruct (NewMerkleTree_levels blocks) as (t & Hnew & Hleaves & Hroot).
  exists t. split; [exact Hnew|]. now rewrite <- Hleaves.
Qed.

(** X6. The root hash depends on the payloads and their order only:
    two lists of blocks with the same sequence of [EncryptedData] give
    the same root hash, whatever their identifiers, table names,
    operations, timestamps and metadata. *)
Theorem RootHash_depends_on_payloads_only (blocks1 blocks2 : list DataBlock)
    (t1 t2 : MerkleTree) :
  map EncryptedData blocks1 = map EncryptedData blocks2 ->
  NewMerkleTree blocks1 = Ok t1 -> NewMerkleTree blocks2 = Ok t2 ->
  RootHash t1 = RootHash t2.
Proof.
  intros Hdata H1 H2.
  destruct (NewMerkleTree_levels blocks1) as (t1' & H1' & Hl1 & Hr1).
  destruct (NewMerkleTree_levels blocks2) as (t2' & H2' & Hl2 & Hr2).
  rewrite H1 in H1'. rewrite H2 in H2'. injection H1' as <-. injection H2' as <-.
  rewrite Hr1, Hr2, Hl1, Hl2.
  replace (map (fun b => HashData (EncryptedData b)) blocks1)
    with (map HashData (map EncryptedData blocks1)) by now rewrite map_map.
  replace (map (fun b => HashData (EncryptedData b)) blocks2)
    with (map HashData (map EncryptedData blocks2)) by now rewrite map_map.
  now rewrite Hdata.
Qed.

Lemma RootHash_depends_on_payloads_only_witness :
  RootHash (treeOf [block "1" "data1" "table1"; block "2" "data2" "table1"]) =
  RootHash (treeOf [mkBlock "x" (bytes_of "data1") "users" "INSERT" 7 ∅;
                    mkBlock "y" (bytes_of "data2") "orders" "UPDATE" 9 ∅]).
Proof.
  apply (RootHash_depends_on_payloads_only
           [block "1" "data1" "table1"; block "2" "data2" "table1"]
           [mkBlock "x" (bytes_of "data1") "users" "INSERT" 7 ∅;
            mkBlock "y" (bytes_of "data2") "orders" "UPDATE" 9 ∅]).
  - reflexivity.
  - vm_compute. reflexivity.
  - vm_compute. reflexivity.
Defined.

Lemma sortStrings_sorted (l : list string) : Sorted String.le l -> sortStrings l = l.
Proof.
  intros Hs. unfold sortStrings. apply (Sorted_unique String.le).
  - apply Sorted_merge_sort; apply _.
  - exact Hs.
  - apply merge_sort_Permutation.
Qed.

Lemma sortStrings_idem (l : list string) : sortStrings (sortStrings l) = sortStrings l.
Proof. apply sortStrings_sorted. unfold sortStrings. apply Sorted_merge_sort; apply _. Qed.

Lemma VerifyProof_multi_verdict rootHash leafHashes proofPath :
  2 <= length leafHashes ->
  VerifyProof rootHash leafHashes proofPath =
  Ok (String.eqb (match levelRoot (sortStrings leafHashes) with
                  | [h] => h
                  | _ => ""
                  end) rootHash).
Proof.
  intros Hlen. unfold VerifyProof.
  destruct (Nat.eqb (length leafHashes) 0) eqn:E0; [apply Nat.eqb_eq in E0; lia|].
  pose proof (sortStrings_length leafHashes) as Hs.
  destruct (sortStrings leafHashes) as [|a [|b rest]] eqn:E; cbn [length] in Hs; try lia.
  cbn [reconstructRoot]. rewrite reconstructRootMultiple_unfold.
  rewrite <- E, sortStrings_idem. reflexivity.
Qed.

(** X7. With two leaf hashes or more, the verdict of [VerifyProof] is
    decided by the leaf hashes and the root hash alone: it compares the
    root hash with the level-by-level pairing of the sorted leaf
    hashes, and the proof is never read. *)
Theorem VerifyProof_multi_decided_by_leaves (rootHash : string)
    (leafHashes : list string) (proofPath : list ProofNode) :
  2 <= length leafHashes ->
  VerifyProof rootHash leafHashes proofPath =
  Ok (String.eqb (match levelRoot (sortStrings leafHashes) with
                  | [h] => h
                  | _ => ""
                  end) rootHash).
Proof. apply VerifyProof_multi_verdict. Qed.

Lemma VerifyProof_multi_decided_by_leaves_witness :
  VerifyProof "r" ["b"; "a"] [mkProofNode "p" true] =
  Ok (String.eqb (match levelRoot (sortStrings ["b"; "a"]) with
                  | [h] => h
                  | _ => ""
                  end) "r").
Proof.
  apply (VerifyProof_multi_decided_by_leaves "r" ["b"; "a"] [mkProofNode "p" true]).
  cbn. lia.
Defined.

(** X8. When the leaf hashes of a tree of two blocks or more are in
    ascending order already, [VerifyProof] accepts the list of all its
    leaf hashes against its root hash, with any proof. *)
Theorem VerifyProof_all_leaves_sorted (blocks : list DataBlock) (t : MerkleTree)
    (proofPath : list ProofNode) :
  NewMerkleTree blocks = Ok t ->
  2 <= length blocks ->
  Sorted String.le (map Hash (Leaves t)) ->
  VerifyProof (RootHash t) (map Hash (Leaves t)) proofPath = Ok true.
Proof.
  intros Hnew Hlen Hsorted.
  destruct (NewMerkleTree_levels blocks) as (t' & Hnew' & Hleaves & Hroot).
  rewrite Hnew in Hnew'. injection Hnew' as <-.
  rewrite VerifyProof_multi_verdict by (rewrite Hleaves, length_map; exact Hlen).
  rewrite (sortStrings_sorted _ Hsorted), <- Hroot. now rewrite String.eqb_refl.
Qed.

Lemma VerifyProof_all_leaves_sorted_witness :
  VerifyProof (RootHash (treeOf blocks23)) (map Hash (Leaves (treeOf blocks23))) [] = Ok true.
Proof.
  apply (VerifyProof_all_leaves_sorted blocks23 (treeOf blocks23) []).
  - vm_compute. reflexivity.
  - cbn. lia.
  - vm_compute. repeat constructor.
Defined.

(** ** What a generated proof holds *)

Lemma mapGet_insert_eq (visited : gmap string bool) k :
  mapGet (<[k := true]> visited) k = true.
Proof. unfold mapGet. now rewrite lookup_insert_eq. Qed.

Lemma mapGet_insert_mono (visited : gmap string bool) k k' :
  mapGet visited k' = true -> mapGet (<[k := true]> visited) k' = true.
Proof.
  intros H. destruct (decide (k = k')) as [->|Hne]; [apply mapGet_insert_eq|].
  unfold mapGet in *. now rewrite lookup_insert_ne.
Qed.

Lemma addSibling_cases parent current visited proofPath :
  addSibling parent current visited proofPath = (proofPath, visited) \/
  exists s isLeft,
    (Left parent = Some s \/ Right parent = Some s) /\
    mapGet visited (Hash s) = false /\
    addSibling parent current visited proofPath =
      (proofPath ++ [mkProofNode (Hash s) isLeft], <[Hash s := true]> visited).
Proof.
  unfold addSibling.
  destruct (ptr_eq (Left parent) (Some current));
    [destruct (Right parent) as [s|] eqn:E | destruct (Left parent) as [s|] eqn:E];
    try (now left);
    (destruct (mapGet visited (Hash s)) eqn:Hv; cbn [negb]; [now left | right]);
    exists s; eexists; (split; [|split; [exact Hv | reflexivity]]); auto.
Qed.

(** One walk to the root: the nodes it appends have pairwise distinct
    hashes, none of them marked before the walk and all of them marked
    after it, and each is the hash of a node of the tree. *)
Lemma getProofPath_loop_path mt fuel :
  forall current visited proofPath res visited',
    getProofPath_loop fuel mt current visited proofPath = Some (res, visited') ->
    exists path,
      res = proofPath ++ path /\
      NoDup (map ProofHash path) /\
      (forall h, h ∈ map ProofHash path ->
                 mapGet visited h = false /\ mapGet visited' h = true) /\
      (forall k, mapGet visited k = true -> mapGet visited' k = true) /\
      Forall (fun node => exists s, s ∈ treeNodes mt /\ Hash s = ProofHash node) path.
Proof.
  assert (Hdone : forall (visited : gmap string bool) (proofPath : list ProofNode),
             exists path : list ProofNode,
               proofPath = proofPath ++ path /\
               NoDup (map ProofHash path) /\
               (forall h, h ∈ map ProofHash path ->
                          mapGet visited h = false /\ mapGet visited h = true) /\
               (forall k, mapGet visited k = true -> mapGet visited k = true) /\
               Forall (fun node => exists s, s ∈ treeNodes mt /\ Hash s = ProofHash node) path).
  { intros visited proofPath. exists []. rewrite app_nil_r.
    repeat split; [constructor | now apply elem_of_nil in H .. | auto | constructor]. }
  induction fuel as [|fuel IH]; intros current visited proofPath res visited'.
  - cbn [getProofPath_loop]. destruct (ptr_eq (Some current) (Root mt)); [|discriminate].
    intros [= <- <-]. apply Hdone.
  - cbn [getProofPath_loop]. destruct (ptr_eq (Some current) (Root mt)).
    { intros [= <- <-]. apply Hdone. }
    destruct (findParent mt current) as [parent|] eqn:Hf.
    2:{ intros [= <- <-]. apply Hdone. }
    assert (Hparent : parent ∈ treeNodes mt).
    { unfold findParent, findParentRecursive, treeNodes in *.
      destruct (Root mt) as [r|]; [|discriminate].
      now apply findParentFrom_sound in Hf as [Hp _]. }
    destruct (addSibling_cases parent current visited proofPath)
      as [->|(s & isLeft & Hchild & Hfresh & ->)].
    { apply IH. }
    intros Hloop. destruct (IH _ _ _ _ _ Hloop) as (path & -> & Hnd & Hmarks & Hmono & Hnodes).
    exists (mkProofNode (Hash s) isLeft :: path). rewrite <- app_assoc.
    split; [reflexivity|]. cbn [map ProofHash]. split; [|split; [|split]].
    + constructor; [|exact Hnd]. intros Hin. destruct (Hmarks _ Hin) as [Hf' _].
      rewrite mapGet_insert_eq in Hf'. discriminate.
    + intros h Hh. apply elem_of_cons in Hh as [->|Hh].
      * split; [exact Hfresh | apply Hmono, mapGet_insert_eq].
      * destruct (Hmarks _ Hh) as [Hf' Ht]. split; [|exact Ht].
        destruct (mapGet visited h) eqn:Hv; [|reflexivity].
        rewrite (mapGet_insert_mono visited (Hash s) h Hv) in Hf'. discriminate.
    + intros k Hk. apply Hmono. now apply mapGet_insert_mono.
    + constructor; [|exact Hnodes]. exists s. split; [|reflexivity].
      unfold treeNodes in *. destruct (Root mt) as [r|]; [|now apply elem_of_nil in Hparent].
      eauto with merkle.
Qed.

Lemma collectPaths_path mt leafNodes :
  forall visited proofPath proof,
    collectPaths mt leafNodes visited proofPath = Some proof ->
    NoDup (map ProofHash proofPath) ->
    (forall h, h ∈ map ProofHash proofPath -> mapGet visited h = true) ->
    Forall (fun node => exists s, s ∈ treeNodes mt /\ Hash s = ProofHash node) proofPath ->
    NoDup (map ProofHash proof) /\
    Forall (fun node => exists s, s ∈ treeNodes mt /\ Hash s = ProofHash node) proof.
Proof.
  induction leafNodes as [|leaf rest IH]; intros visited proofPath proof; cbn [collectPaths].
  - intros [= <-]. auto.
  - unfold getProofPath.
    destruct (getProofPath_loop (treeHeight mt) mt leaf visited []) as [[path visited']|] eqn:Hloop;
      [|discriminate].
    destruct (getProofPath_loop_path _ _ _ _ _ _ _ Hloop)
      as (path' & E & Hnd & Hmarks & Hmono & Hnodes).
    cbn [app] in E. subst path'.
    intros Hrest Hnd0 Hvis Hnodes0. apply (IH _ _ _ Hrest).
    + rewrite map_app. apply NoDup_app. split; [exact Hnd0|]. split; [|exact Hnd].
      intros h Hh Hh'. destruct (Hmarks _ Hh') as [Hf _]. rewrite (Hvis _ Hh) in Hf. discriminate.
    + intros h Hh. rewrite map_app in Hh. apply elem_of_app in Hh as [Hh|Hh].
      * apply Hmono, Hvis, Hh.
      * now apply Hmarks.
    + apply Forall_app. now split.
Qed.

Lemma GenerateProof_path mt leafHashes proof :
  GenerateProof mt leafHashes = Some (Ok proof) ->
  NoDup (map ProofHash proof) /\
  Forall (fun node => exists s, s ∈ treeNodes mt /\ Hash s = ProofHash node) proof.
Proof.
  unfold GenerateProof. destruct (Root mt); [|discriminate].
  destruct (Nat.eqb (length (findLeaves (Leaves mt) leafHashes)) 0); [discriminate|].
  destruct (collectPaths mt _ ∅ []) as [proofPath|] eqn:Hc; [|discriminate].
  intros [= <-]. apply (collectPaths_path _ _ _ _ _ Hc).
  - constructor.
  - intros h Hh. now apply elem_of_nil in Hh.
  - constructor.
Qed.



(** X10. The client's conversion of a proof path decodes and encodes
    every hash again; on a proof [GenerateProof] returned for a tree
    built by [NewMerkleTree] it fails on no hash and changes nothing. *)
Theorem convertProof_generated (blocks : list DataBlock) (t : MerkleTree)
    (leafHashes : list string) (proof : list ProofNode) :
  NewMerkleTree blocks = Ok t ->
  GenerateProof t leafHashes = Some (Ok proof) ->
  convertProof proof = inl proof.
Proof.
  intros Hnew Hgen. destruct (GenerateProof_path _ _ _ Hgen) as [_ Hnodes].
  assert (Hshape : forall s, s ∈ treeNodes t -> shaped s).
  { destruct blocks as [|b bs] eqn:Eb.
    - injection Hnew as <-. intros s Hs. now apply elem_of_nil in Hs.
    - rewrite <- Eb in *. assert (Hne : blocks <> []) by (rewrite Eb; discriminate).
      destruct (NewMerkleTree_spec blocks Hne) as (root & Hnew' & [Hshape _] & _).
      rewrite Hnew' in Hnew. injection Hnew as <-. exact Hshape. }
  clear Hgen. induction Hnodes as [|node rest (s & Hs & Hh) _ IH]; [reflexivity|].
  cbn [convertProof]. rewrite <- Hh, (shaped_hash_preimage s (Hshape s Hs)).
  unfold StringToHash. rewrite DecodeString_EncodeToString, IH.
  unfold HashToString. rewrite <- (shaped_hash_preimage s (Hshape s Hs)), Hh.
  now destruct node.
Qed.

Lemma convertProof_generated_witness :
  convertProof
    [ mkProofNode (Hash (leaf4 1)) false;
      mkProofNode (HashConcat (Hash (leaf4 2)) (Hash (leaf4 3))) false ] =
  inl [ mkProofNode (Hash (leaf4 1)) false;
        mkProofNode (HashConcat (Hash (leaf4 2)) (Hash (leaf4 3))) false ].
Proof.
  apply (convertProof_generated blocks4 tree4 [Hash (leaf4 0)]).
  - vm_compute. reflexivity.
  - vm_compute. reflexivity.
Defined.

(** ** Height of the tree, length of a single-leaf proof *)

Lemma log2_up_half n :
  2 <= n -> Nat.log2_up n = S (Nat.log2_up ((n + n mod 2) / 2)).
Proof.
  intros Hn. set (m := (n + n mod 2) / 2).
  assert (Hm : n <= 2 * m /\ 2 * m <= n + 1 /\ 1 <= m).
  { subst m. halves n. halves (n + n mod 2).
    assert ((n + n mod 2) mod 2 = 0).
    { rewrite Nat.Div0.add_mod_idemp_r. replace (n + n) with (n * 2) by lia.
      apply Nat.Div0.mod_mul. }
    lia. }
  destruct Hm as (Hlo & Hhi & Hpos).
  apply Nat.le_antisymm.
  - apply Nat.log2_up_le_pow2; [lia|].
    pose proof (proj2 (Nat.log2_up_le_pow2 m (Nat.log2_up m) ltac:(lia)) (Nat.le_refl _)).
    rewrite Nat.pow_succ_r'. lia.
  - assert (Hb : 0 < Nat.log2_up n) by (apply Nat.log2_up_pos; lia).
    destruct (Nat.log2_up n) as [|b] eqn:Eb; [lia|].
    apply le_n_S. apply Nat.log2_up_le_pow2; [lia|].
    pose proof (proj2 (Nat.log2_up_le_pow2 n (S b) ltac:(lia)) ltac:(lia)) as Hpow.
    rewrite Nat.pow_succ_r' in Hpow. lia.
Qed.

Lemma buildTree_fuel_height fuel : forall next k nodes,
  length nodes <= fuel -> nodes <> [] ->
  (forall n, n ∈ nodes -> height n = k) ->
  exists root,
    buildTree_fuel fuel next nodes = Some root /\
    height root = k + Nat.log2_up (length nodes).
Proof.
  induction fuel as [|fuel IH]; intros next k nodes Hlen Hne Hk.
  - destruct nodes; [congruence | cbn in Hlen; lia].
  - destruct nodes as [|a [|b rest]]; [congruence | |].
    { exists a. split; [reflexivity|]. cbn [length]. rewrite (Hk a) by apply list_elem_of_here.
      cbn. lia. }
    set (nodes := a :: b :: rest) in *.
    assert (Hn2 : 2 <= length nodes) by (cbn; lia).
    destruct (padOdd_length nodes) as [Hpl _].
    pose proof (makeParents_length next (padOdd nodes)) as Hlp.
    destruct (IH (next + length (makeParents next (padOdd nodes))) (S k)
                (makeParents next (padOdd nodes))) as (root & Hb & Hh).
    + halves (length nodes). halves (length (padOdd nodes)). lia.
    + intros E. rewrite E in Hlp. cbn [length] in Hlp.
      halves (length (padOdd nodes)). lia.
    + intros p Hp. apply makeParents_elem in Hp as [_ (l & r & Hl & Hr & ->)].
      apply -> padOdd_elem in Hl. apply -> padOdd_elem in Hr.
      cbn [height]. rewrite (Hk l Hl), (Hk r Hr). lia.
    + exists root. split; [exact Hb|]. rewrite Hh, Hlp, Hpl.
      rewrite (log2_up_half (length nodes) Hn2). lia.
Qed.

(** X11. A tree of [n] blocks has height [ceil(log2 n)], the smallest
    [h] with [n <= 2^h] (0 for the empty tree and for one block): every
    leaf sits that many levels below the root. *)
Theorem treeHeight_log2 (blocks : list DataBlock) :
  exists t,
    NewMerkleTree blocks = Ok t /\
    treeHeight t = Nat.log2_up (length blocks).
Proof.
  unfold NewMerkleTree. destruct blocks as [|b bs] eqn:Eb.
  - eexists. split; reflexivity.
  - rewrite <- Eb. assert (Hlen : Nat.eqb (length blocks) 0 = false) by now rewrite Eb.
    rewrite Hlen. unfold buildTree.
    destruct (buildTree_fuel_height (length (makeLeaves 0 blocks))
                (length (makeLeaves 0 blocks)) 0 (makeLeaves 0 blocks))
      as (root & Hb & Hh); [lia | now rewrite Eb | |].
    + intros n Hn. apply makeLeaves_elem in Hn as [_ (x & _ & ->)]. reflexivity.
    + rewrite Hb. eexists. split; [reflexivity|].
      unfold treeHeight. cbn [Root]. now rewrite Hh, makeLeaves_length.
Qed.

Section Lengths.

Variable root : MerkleNode.
Hypothesis Hwf : wfNode root.
Variable leaves : list MerkleNode.
Variable rh : string.

(** A walk from a node of the tree appends one proof node per level at
    most. *)
Lemma getProofPath_loop_length fuel :
  forall c visited acc res visited',
    c ∈ nodesOf root ->
    getProofPath_loop fuel (mkTree (Some root) leaves rh) c visited acc = Some (res, visited') ->
    exists path, res = acc ++ path /\ length path + height c <= height root.
Proof.
  induction fuel as [|fuel IH]; intros c visited acc res visited' Hc.
  - cbn [getProofPath_loop Root].
    destruct (ptr_eq (Some c) (Some root)); [|discriminate].
    intros [= <- <-]. exists []. rewrite app_nil_r. split; [reflexivity|].
    destruct (nodesOf_height _ _ Hc) as [->|Hlt]; cbn; lia.
  - cbn [getProofPath_loop Root].
    assert (Hle : height c <= height root)
      by (destruct (nodesOf_height _ _ Hc) as [->|Hlt]; lia).
    destruct (ptr_eq (Some c) (Some root)) eqn:E.
    { intros [= <- <-]. exists []. rewrite app_nil_r. split; [reflexivity | cbn; lia]. }
    assert (Hne : c <> root).
    { intros ->. cbn [ptr_eq] in E. rewrite Nat.eqb_refl in E. discriminate. }
    destruct (parent_step root Hwf c Hc Hne)
      as (p & l & r & Hf & Hp & HL & HR & Hl & Hr & Hh & Hlr & Hhp & Hside).
    unfold findParent, findParentRecursive. cbn [Root]. rewrite Hf.
    assert (Hhc : height p = S (height c)) by (destruct Hside as [[_ <-]|[_ <-]]; lia).
    destruct (addSibling_cases p c visited acc) as [->|(s & isLeft & _ & _ & ->)].
    + intros Hloop. destruct (IH _ _ _ _ _ Hp Hloop) as (path & -> & Hlen).
      exists path. split; [reflexivity | lia].
    + intros Hloop. destruct (IH _ _ _ _ _ Hp Hloop) as (path & -> & Hlen).
      exists (mkProofNode (Hash s) isLeft :: path). rewrite <- app_assoc.
      split; [reflexivity | cbn [length]; lia].
Qed.

Hypothesis Hsame :
  forall a b, a ∈ nodesOf root -> b ∈ nodesOf root ->
              Hash a = Hash b -> height a = height b.

(** Without collision, the walk appends exactly one node per level and
    the nodes fold the hash of the start into the hash of the root. *)
Lemma getProofPath_loop_exact fuel :
  forall c visited acc,
    c ∈ nodesOf root -> height root <= height c + fuel ->
    visitedBelow root visited (height c) ->
    exists path visited',
      getProofPath_loop fuel (mkTree (Some root) leaves rh) c visited acc
        = Some (acc ++ path, visited') /\
      foldPath (Hash c) path = Hash root /\
      length path + height c = height root.
Proof.
  induction fuel as [|fuel IH]; intros c visited acc Hc Hfuel Hvis.
  - cbn [getProofPath_loop Root].
    destruct (nodesOf_height _ _ Hc) as [->|Hlt]; [|lia].
    cbn [ptr_eq]. rewrite Nat.eqb_refl. exists [], visited. now rewrite app_nil_r.
  - cbn [getProofPath_loop Root].
    destruct (ptr_eq (Some c) (Some root)) eqn:E.
    { apply (ptr_eq_root root Hwf c Hc) in E as ->.
      exists [], visited. now rewrite app_nil_r. }
    assert (Hne : c <> root).
    { intros ->. cbn [ptr_eq] in E. rewrite Nat.eqb_refl in E. discriminate. }
    destruct (parent_step root Hwf c Hc Hne)
      as (p & l & r & Hf & Hp & HL & HR & Hl & Hr & Hh & Hlr & Hhp & Hside).
    unfold findParent, findParentRecursive. cbn [Root]. rewrite Hf.
    assert (Hhc : height p = S (height c)) by (destruct Hside as [[_ <-]|[_ <-]]; lia).
    assert (Hfresh : forall s, s ∈ nodesOf root -> height s = height c ->
                               mapGet visited (Hash s) = false).
    { intros s Hs Hhs. destruct (mapGet visited (Hash s)) eqn:Hv; [|reflexivity].
      destruct (Hvis _ Hv) as (x & Hx & Hxh & Hxlt).
      pose proof (Hsame x s Hx Hs Hxh). lia. }
    assert (Hnext : forall s, s ∈ nodesOf root -> height s = height c ->
                              visitedBelow root (<[Hash s := true]> visited) (height p)).
    { intros s Hs Hhs k Hk. apply mapGet_insert in Hk as [->|Hk].
      - exists s. repeat split; [assumption | lia].
      - destruct (Hvis _ Hk) as (x & Hx & Hxh & Hxlt). exists x. repeat split; try assumption. lia. }
    unfold addSibling. rewrite HL, HR.
    destruct Hside as [[Hptr <-]|[Hptr <-]]; rewrite HL in Hptr; rewrite Hptr.
    + rewrite (Hfresh r Hr) by lia. cbn [negb].
      destruct (IH p (<[Hash r := true]> visited)
                  (acc ++ [mkProofNode (Hash r) false]) Hp)
        as (path & visited' & Hloop & Hfold & Hlen); [lia | apply Hnext; [assumption | lia] |].
      exists (mkProofNode (Hash r) false :: path), visited'. split; [|split].
      * rewrite Hloop. now rewrite <- app_assoc.
      * cbn. cbn in Hfold. now rewrite <- Hh.
      * cbn [length]. lia.
    + rewrite (Hfresh l Hl) by lia. cbn [negb].
      destruct (IH p (<[Hash l := true]> visited)
                  (acc ++ [mkProofNode (Hash l) true]) Hp)
        as (path & visited' & Hloop & Hfold & Hlen); [lia | apply Hnext; [assumption | lia] |].
      exists (mkProofNode (Hash l) true :: path), visited'. split; [|split].
      * rewrite Hloop. now rewrite <- app_assoc.
      * cbn. cbn in Hfold. now rewrite <- Hh.
      * cbn [length]. lia.
Qed.

End Lengths.

Lemma single_leaf_request blocks t leaf :
  NewMerkleTree blocks = Ok t -> leaf ∈ Leaves t ->
  exists root leaf',
    t = mkTree (Some root) (makeLeaves 0 blocks) (Hash root) /\
    wfNode root /\ leaf' ∈ nodesOf root /\ height leaf' = 0 /\ Hash leaf' = Hash leaf /\
    height root = Nat.log2_up (length blocks) /\
    forall proof,
      GenerateProof t [Hash leaf] = Some (Ok proof) <->
      exists visited',
        getProofPath_loop (height root) t leaf' ∅ [] = Some (proof, visited').
Proof.
  intros Hnew Hleaf.
  assert (Hne : blocks <> []).
  { intros ->. injection Hnew as <-. now apply elem_of_nil in Hleaf. }
  destruct (NewMerkleTree_spec blocks Hne) as (root & Hnew' & Hwf & Hcov & _).
  destruct (treeHeight_log2 blocks) as (t' & Hnew'' & Hheight).
  rewrite Hnew' in Hnew, Hnew''. injection Hnew as <-. injection Hnew'' as <-.
  cbn [Leaves] in Hleaf. unfold treeHeight in Hheight. cbn [Root] in Hheight.
  destruct (List.find (fun l => String.eqb (Hash l) (Hash leaf)) (makeLeaves 0 blocks))
    as [leaf'|] eqn:F.
  2:{ apply list_elem_of_In in Hleaf. pose proof (find_none _ _ F leaf Hleaf) as Hn.
      cbn in Hn. rewrite String.eqb_refl in Hn. discriminate. }
  pose proof F as F'. apply find_some in F' as [Hin Heq]. apply String.eqb_eq in Heq.
  apply list_elem_of_In in Hin.
  exists root, leaf'. repeat (split; [auto; fail|]).
  split; [destruct (makeLeaves_elem _ _ _ Hin) as [_ (b & _ & ->)]; reflexivity|].
  split; [exact Heq|]. split; [exact Hheight|].
  intros proof. unfold GenerateProof. cbn [Root Leaves findLeaves]. rewrite F.
  cbn [length Nat.eqb collectPaths]. unfold getProofPath, treeHeight. cbn [Root].
  destruct (getProofPath_loop (height root) _ leaf' ∅ []) as [[path v]|]; cbn [app collectPaths].
  - split; [intros [= <-]; eauto | intros (v' & [= <- <-]); reflexivity].
  - split; [discriminate | intros (v' & [=])].
Qed.

(** X12. The proof [GenerateProof] returns for one leaf of a tree of [n]
    blocks has at most [ceil(log2 n)] nodes, one per level at most; on a
    tree free of SHA-256 collisions it has exactly that many. *)
Theorem single_leaf_proof_length (blocks : list DataBlock) (t : MerkleTree)
    (leaf : MerkleNode) (proof : list ProofNode) :
  NewMerkleTree blocks = Ok t ->
  leaf ∈ Leaves t ->
  GenerateProof t [Hash leaf] = Some (Ok proof) ->
  length proof <= Nat.log2_up (length blocks) /\
  (collisionFree t = true -> length proof = Nat.log2_up (length blocks)).
Proof.
  intros Hnew Hleaf Hgen.
  destruct (single_leaf_request blocks t leaf Hnew Hleaf)
    as (root & leaf' & Et & Hwf & Hin & Hh0 & Heq & Hheight & Hiff).
  destruct (proj1 (Hiff proof) Hgen) as (v' & Hloop). clear Hiff. subst t. split.
  - destruct (getProofPath_loop_length root Hwf _ _ _ _ _ _ _ _ Hin Hloop) as (path & E & Hlen).
    cbn [app] in E. subst path. lia.
  - intros Hcf.
    assert (Hsame := sameHash_sameHeight root Hwf).
    specialize (Hsame (collisionFree_spec _ Hcf)).
    destruct (getProofPath_loop_exact root Hwf (makeLeaves 0 blocks) (Hash root) Hsame
                (height root) leaf' ∅ [] Hin)
      as (path & v'' & Hloop' & _ & Hlen); [lia | |].
    { intros k Hk. unfold mapGet in Hk. rewrite lookup_empty in Hk. discriminate. }
    rewrite Hloop' in Hloop. injection Hloop as <- _. cbn [app]. lia.
Qed.

Lemma single_leaf_proof_length_witness :
  length [ mkProofNode (Hash (leaf4 1)) false;
           mkProofNode (HashConcat (Hash (leaf4 2)) (Hash (leaf4 3))) false ]
    <= Nat.log2_up (length blocks4) /\
  (collisionFree tree4 = true ->
   length [ mkProofNode (Hash (leaf4 1)) false;
            mkProofNode (HashConcat (Hash (leaf4 2)) (Hash (leaf4 3))) false ]
     = Nat.log2_up (length blocks4)).
Proof.
  apply (single_leaf_proof_length blocks4 tree4 (leaf4 0)).
  - vm_compute. reflexivity.
  - apply list_elem_of_In. vm_compute. tauto.
  - vm_compute. reflexivity.
Defined.

(** X13. On a tree free of SHA-256 collisions, the proof generated for
    one leaf verifies against the root hash of the tree only:
    [VerifyProof] returns [false] for every other root hash. *)
Theorem single_leaf_wrong_root_rejected (blocks : list DataBlock) (t : MerkleTree)
    (leaf : MerkleNode) (proof : list ProofNode) (rootHash : string) :
  NewMerkleTree blocks = Ok t ->
  leaf ∈ Leaves t ->
  collisionFree t = true ->
  GenerateProof t [Hash leaf] = Some (Ok proof) ->
  rootHash <> RootHash t ->
  VerifyProof rootHash [Hash leaf] proof = Ok false.
Proof.
  intros Hnew Hleaf Hcf Hgen Hroot.
  destruct (single_leaf_request blocks t leaf Hnew Hleaf)
    as (root & leaf' & Et & Hwf & Hin & Hh0 & Heq & Hheight & Hiff).
  destruct (proj1 (Hiff proof) Hgen) as (v' & Hloop). clear Hiff. subst t.
  assert (Hsame := sameHash_sameHeight root Hwf).
  specialize (Hsame (collisionFree_spec _ Hcf)).
  destruct (getProofPath_loop_exact root Hwf (makeLeaves 0 blocks) (Hash root) Hsame
              (height root) leaf' ∅ [] Hin)
    as (path & v'' & Hloop' & Hfold & _); [lia | |].
  { intros k Hk. unfold mapGet in Hk. rewrite lookup_empty in Hk. discriminate. }
  rewrite Hloop' in Hloop. injection Hloop as <- _. cbn [app].
  unfold VerifyProof. cbn [length Nat.eqb].
  change (sortStrings [Hash leaf]) with [Hash leaf]. cbn [reconstructRoot].
  rewrite <- Heq, Hfold. f_equal. apply String.eqb_neq.
  cbn [RootHash] in Hroot. congruence.
Qed.

Lemma single_leaf_wrong_root_rejected_witness :
  VerifyProof (Hash (leaf4 0)) [Hash (leaf4 0)]
    [ mkProofNode (Hash (leaf4 1)) false;
      mkProofNode (HashConcat (Hash (leaf4 2)) (Hash (leaf4 3))) false ] = Ok false.
Proof.
  apply (single_leaf_wrong_root_rejected blocks4 tree4 (leaf4 0)).
  - vm_compute. reflexivity.
  - apply list_elem_of_In. vm_compute. tauto.
  - vm_compute. reflexivity.
  - vm_compute. reflexivity.
  - intros E. vm_compute in E. discriminate E.
Defined.

(** X14. For a tree of a single block the proof of its leaf is empty,
    and [VerifyProof] accepts the empty proof against the root hash. *)
Theorem single_block_empty_proof (X : DataBlock) :
  exists t,
    NewMerkleTree [X] = Ok t /\
    GenerateProof t [HashData (EncryptedData X)] = Some (Ok []) /\
    VerifyProof (RootHash t) [HashData (EncryptedData X)] [] = Ok true.
Proof.
  set (leaf := mkNode 0 (HashData (EncryptedData X)) None None true (EncryptedData X) (ID X)).
  exists (mkTree (Some leaf) [leaf] (HashData (EncryptedData X))).
  split; [reflexivity|]. split.
  - unfold GenerateProof. cbn [Root Leaves findLeaves List.find].
    subst leaf. cbn [Hash]. rewrite String.eqb_refl. reflexivity.
  - unfold VerifyProof. cbn [length Nat.eqb RootHash].
    change (sortStrings [HashData (EncryptedData X)]) with [HashData (EncryptedData X)].
    cbn [reconstructRoot foldPath fold_left]. now rewrite String.eqb_refl.
Qed.

(** ** [findParent] *)

(** X15. On a tree built by [NewMerkleTree], [findParent] returns nil
    for the root and for no other node of the tree; for any other node
    it returns a node of the tree that has it as left or right child. *)
Theorem findParent_spec (blocks : list DataBlock) (t : MerkleTree) (c : MerkleNode) :
  NewMerkleTree blocks = Ok t -> c ∈ treeNodes t ->
  match findParent t c with
  | None => Root t = Some c
  | Some p => Root t <> Some c /\ p ∈ treeNodes t /\ (Left p = Some c \/ Right p = Some c)
  end.
Proof.
  intros Hnew Hc.
  assert (Hne : blocks <> []).
  { intros ->. injection Hnew as <-. now apply elem_of_nil in Hc. }
  destruct (NewMerkleTree_spec blocks Hne) as (root & Hnew' & Hwf & _).
  rewrite Hnew' in Hnew. injection Hnew as <-.
  unfold treeNodes, findParent, findParentRecursive in *. cbn [Root] in *.
  destruct (decide (addr c = addr root)) as [Ea|Ea].
  - assert (c = root) as -> by (apply Hwf; auto using nodesOf_self).
    destruct (findParentFrom root root) as [p|] eqn:Hf; [|reflexivity].
    exfalso. destruct (findParentFrom_sound _ _ _ Hf) as (Hp & _ & Hptr).
    destruct Hwf as [Hshape Huniq]. pose proof (Hshape p Hp) as Hs. unfold shaped in Hs.
    destruct (Left p) as [l|] eqn:HL, (Right p) as [r|] eqn:HR; cbn [ptr_eq] in Hptr;
      try tauto; try (destruct Hptr; discriminate).
    assert (Hchild : forall x, Left p = Some x \/ Right p = Some x ->
                               Nat.eqb (addr x) (addr root) = true -> False).
    { intros x Hx Hax. apply Nat.eqb_eq in Hax.
      assert (x = root) as -> by (apply Huniq; eauto using nodesOf_self with merkle).
      assert (Hlt : height root < height p).
      { rewrite (height_unfold p), HL, HR.
        destruct Hx as [Hx|Hx]; rewrite ?HL, ?HR in Hx; injection Hx as ->; lia. }
      destruct (nodesOf_height _ _ Hp) as [Ep|Hlt']; [rewrite Ep in Hlt|]; lia. }
    destruct Hptr as [Hptr|Hptr]; [apply (Hchild l) | apply (Hchild r)]; auto.
  - assert (Hcr : c <> root) by congruence.
    destruct (parent_step root Hwf c Hc Hcr)
      as (p & l & r & -> & Hp & HL & HR & _ & _ & _ & _ & _ & Hside).
    split; [congruence|]. split; [exact Hp|].
    destruct Hside as [[_ <-]|[_ <-]]; auto.
Qed.

Lemma findParent_spec_witness :
  match findParent tree4 (leaf4 2) with
  | None => Root tree4 = Some (leaf4 2)
  | Some p =>
      Root tree4 <> Some (leaf4 2) /\ p ∈ treeNodes tree4 /\
      (Left p = Some (leaf4 2) \/ Right p = Some (leaf4 2))
  end.
Proof.
  apply (findParent_spec blocks4 tree4 (leaf4 2)).
  - vm_compute. reflexivity.
  - apply list_elem_of_In. vm_compute. tauto.
Defined.

(** ** The differ on two built trees *)

Lemma diffNil_app node2 differences :
  diffNil node2 differences = differences ++ diffNil node2 [].
Proof. destruct node2; cbn; [reflexivity | now rewrite app_nil_r]. Qed.

Lemma diffFrom_app node1 : forall node2 differences,
  diffFrom node1 node2 differences = differences ++ diffFrom node1 node2 [].
Proof.
  induction node1 as [a h l r il d b IHl IHr] using MerkleNode_induction.
  intros node2 differences. cbn [diffFrom].
  destruct node2 as [n2|]; [|reflexivity].
  destruct (negb (String.eqb h (Hash n2))); [|now rewrite app_nil_r].
  destruct (il && IsLeaf n2); [reflexivity|].
  assert (Hl : forall o acc,
             match l with Some l' => diffFrom l' o acc | None => diffNil o acc end =
             acc ++ match l with Some l' => diffFrom l' o [] | None => diffNil o [] end).
  { intros o acc. destruct l as [l'|]; [now apply IHl | apply diffNil_app]. }
  assert (Hr : forall o acc,
             match r with Some r' => diffFrom r' o acc | None => diffNil o acc end =
             acc ++ match r with Some r' => diffFrom r' o [] | None => diffNil o [] end).
  { intros o acc. destruct r as [r'|]; [now apply IHr | apply diffNil_app]. }
  rewrite Hr, Hl. rewrite (Hr _ (match l with Some l' => _ | None => _ end)).
  now rewrite app_assoc.
Qed.

Lemma diffFrom_same_hash node1 node2 differences :
  Hash node1 = Hash node2 -> diffFrom node1 (Some node2) differences = differences.
Proof.
  intros E. destruct node1 as [a h l r il d b]. cbn in E. subst h.
  cbn [diffFrom]. now rewrite String.eqb_refl.
Qed.

Lemma shapedTree_child n x :
  shapedTree n -> Left n = Some x \/ Right n = Some x -> shapedTree x.
Proof. intros H Hx s Hs. apply H. apply nodesOf_trans with x; auto with merkle. Qed.

Lemma diffFrom_differs node1 : forall node2,
  shapedTree node1 -> shapedTree node2 -> Hash node1 <> Hash node2 ->
  diffFrom node1 (Some node2) [] <> [].
Proof.
  induction node1 as [a h l r il d b IHl IHr] using MerkleNode_induction.
  intros node2 H1 H2 Hne. cbn [Hash] in Hne. cbn [diffFrom].
  assert (Hb : String.eqb h (Hash node2) = false) by now apply String.eqb_neq.
  rewrite Hb. cbn [negb app].
  destruct (il && IsLeaf node2) eqn:Hleaf; [discriminate|].
  pose proof (H1 _ (nodesOf_self _)) as S1. pose proof (H2 _ (nodesOf_self _)) as S2.
  unfold shaped in S1, S2. cbn [Left Right IsLeaf Hash] in S1.
  destruct l as [l1|], r as [r1|]; try tauto.
  - destruct S1 as (-> & -> & _).
    destruct (Left node2) as [l2|] eqn:HL2, (Right node2) as [r2|] eqn:HR2; try tauto.
    + destruct S2 as (_ & E2 & _).
      rewrite diffFrom_app. intros E. apply app_eq_nil in E as [El Er].
      destruct (String.eqb_spec (Hash l1) (Hash l2)) as [Ehl|Nhl].
      * apply (IHr r1 eq_refl r2); auto.
        -- eapply shapedTree_child; [exact H1 | now right].
        -- eapply shapedTree_child; [exact H2 | now right].
        -- intros Ehr. apply Hne. rewrite E2. now rewrite Ehl, Ehr.
      * apply (IHl l1 eq_refl l2); auto.
        -- eapply shapedTree_child; [exact H1 | now left].
        -- eapply shapedTree_child; [exact H2 | now left].
    + rewrite diffFrom_app. intros E. apply app_eq_nil in E as [El _].
      destruct l1. discriminate El.
  - destruct S1 as (-> & _). cbn [andb] in Hleaf.
    destruct (Left node2) as [l2|] eqn:HL2, (Right node2) as [r2|] eqn:HR2; try tauto.
    + cbn. discriminate.
    + destruct S2 as [S2 _]. congruence.
Qed.

(** X16. For two trees built by [NewMerkleTree], [DiffTrees] reports no
    difference exactly when the two root hashes are equal. *)
Theorem DiffTrees_empty_iff_same_root (blocks1 blocks2 : list DataBlock)
    (t1 t2 : MerkleTree) :
  NewMerkleTree blocks1 = Ok t1 -> NewMerkleTree blocks2 = Ok t2 ->
  exists differences,
    DiffTrees (Some t1) (Some t2) = Ok differences /\
    (differences = [] <-> RootHash t1 = RootHash t2).
Proof.
  intros H1 H2. eexists. split; [reflexivity|].
  assert (Hcase : forall blocks t, NewMerkleTree blocks = Ok t ->
            (Root t = None /\ RootHash t = "") \/
            (exists root, Root t = Some root /\ RootHash t = Hash root /\ shapedTree root)).
  { intros blocks t Ht. destruct blocks as [|b bs] eqn:Eb.
    - injection Ht as <-. now left.
    - rewrite <- Eb in *. assert (Hne : blocks <> []) by (rewrite Eb; discriminate).
      destruct (NewMerkleTree_spec blocks Hne) as (root & Hnew & [Hshape _] & _).
      rewrite Hnew in Ht. injection Ht as <-. right. exists root. now repeat split. }
  destruct (Hcase _ _ H1) as [[R1 E1]|(r1 & R1 & E1 & S1)],
           (Hcase _ _ H2) as [[R2 E2]|(r2 & R2 & E2 & S2)];
    rewrite R1, R2, E1, E2; cbn [diffNodes diffNil app].
  - split; reflexivity.
  - split; [discriminate|]. intros E. symmetry in E.
    now apply (shaped_hash_nonempty r2 (S2 _ (nodesOf_self _))) in E.
  - split; [destruct r1; discriminate|]. intros E.
    now apply (shaped_hash_nonempty r1 (S1 _ (nodesOf_self _))) in E.
  - split.
    + intros E. destruct (String.eqb_spec (Hash r1) (Hash r2)) as [Eh|Nh]; [exact Eh|].
      now apply (diffFrom_differs r1 r2 S1 S2 Nh) in E.
    + apply diffFrom_same_hash.
Qed.

Lemma DiffTrees_empty_iff_same_root_witness :
  exists differences,
    DiffTrees (Some tree2) (Some tree4) = Ok differences /\
    (differences = [] <-> RootHash tree2 = RootHash tree4).
Proof.
  apply (DiffTrees_empty_iff_same_root blocks2 blocks4 tree2 tree4);
    vm_compute; reflexivity.
Defined.

Lemma diffFrom_same_height node1 : forall node2 differences,
  shapedTree node1 -> shapedTree node2 -> height node1 = height node2 ->
  leafDescriptors differences ->
  leafDescriptors (diffFrom node1 (Some node2) differences).
Proof.
  induction node1 as [a h l r il d b IHl IHr] using MerkleNode_induction.
  intros node2 differences H1 H2 Hh Hacc. cbn [diffFrom].
  destruct (negb (String.eqb h (Hash node2))); [|exact Hacc].
  destruct (il && IsLeaf node2) eqn:Hleaf.
  { destruct Hacc as [Hall Hev]. split.
    - apply Forall_app. split; [exact Hall | repeat constructor].
    - rewrite length_app. cbn [length]. rewrite Nat.add_comm. exact Hev. }
  pose proof (H1 _ (nodesOf_self _)) as S1. pose proof (H2 _ (nodesOf_self _)) as S2.
  unfold shaped in S1, S2. cbn [Left Right IsLeaf Hash] in S1.
  rewrite (height_unfold node2) in Hh. cbn [height] in Hh.
  destruct l as [l1|], r as [r1|]; try tauto;
    destruct (Left node2) as [l2|] eqn:HL2, (Right node2) as [r2|] eqn:HR2; try tauto;
    try lia.
  - destruct S1 as (_ & _ & Hh1), S2 as (_ & _ & Hh2).
    apply (IHr r1 eq_refl r2).
    + eapply shapedTree_child; [exact H1 | now right].
    + eapply shapedTree_child; [exact H2 | now right].
    + lia.
    + apply (IHl l1 eq_refl l2); [| | lia | exact Hacc].
      * eapply shapedTree_child; [exact H1 | now left].
      * eapply shapedTree_child; [exact H2 | now left].
Qed.

(** X17. For two trees built from the same number of blocks, every
    descriptor [DiffTrees] reports is a leaf descriptor, and they come
    in pairs (one leaf of each tree): the count is even. *)
Theorem DiffTrees_same_size_leaves (blocks1 blocks2 : list DataBlock)
    (t1 t2 : MerkleTree) :
  NewMerkleTree blocks1 = Ok t1 -> NewMerkleTree blocks2 = Ok t2 ->
  length blocks1 = length blocks2 ->
  exists differences,
    DiffTrees (Some t1) (Some t2) = Ok differences /\
    Forall (fun d => DiffIsLeaf d = true) differences /\
    Nat.even (length differences) = true.
Proof.
  intros H1 H2 Hlen. eexists. split; [reflexivity|].
  destruct blocks1 as [|b1 bs1] eqn:E1, blocks2 as [|b2 bs2] eqn:E2; try discriminate Hlen.
  - injection H1 as <-. injection H2 as <-. cbn. split; [constructor | reflexivity].
  - rewrite <- E1, <- E2 in *.
    assert (N1 : blocks1 <> []) by (rewrite E1; discriminate).
    assert (N2 : blocks2 <> []) by (rewrite E2; discriminate).
    destruct (NewMerkleTree_spec blocks1 N1) as (r1 & Hn1 & [S1 _] & _).
    destruct (NewMerkleTree_spec blocks2 N2) as (r2 & Hn2 & [S2 _] & _).
    destruct (treeHeight_log2 blocks1) as (t1' & Hn1' & Hh1).
    destruct (treeHeight_log2 blocks2) as (t2' & Hn2' & Hh2).
    rewrite Hn1 in H1, Hn1'. rewrite Hn2 in H2, Hn2'.
    injection H1 as <-. injection H2 as <-. injection Hn1' as <-. injection Hn2' as <-.
    unfold treeHeight in Hh1, Hh2. cbn [Root diffNodes] in *.
    apply (diffFrom_same_height r1 r2 [] S1 S2); [congruence|].
    split; [constructor | reflexivity].
Qed.

Lemma DiffTrees_same_size_leaves_witness :
  exists differences,
    DiffTrees (Some tree2) (Some (treeOf blocks23)) = Ok differences /\
    Forall (fun d => DiffIsLeaf d = true) differences /\
    Nat.even (length differences) = true.
Proof.
  apply (DiffTrees_same_size_leaves blocks2 blocks23 tree2 (treeOf blocks23)).
  - vm_compute. reflexivity.
  - vm_compute. reflexivity.
  - reflexivity.
Defined.

(** With an odd number of blocks the last leaf is its own sibling, and a
    change of that leaf is reported twice. *)
Example DiffTrees_odd_leaf_twice :
  DiffTrees (Some (treeOf (firstn 3 blocks4)))
    (Some (treeOf [block "1" "data1" "table1"; block "2" "data2" "table1";
                   block "3" "other" "table1"])) =
  Ok [ mkDiffNode (HashData (bytes_of "data3")) true;
       mkDiffNode (HashData (bytes_of "other")) true;
       mkDiffNode (HashData (bytes_of "data3")) true;
       mkDiffNode (HashData (bytes_of "other")) true ].
Proof. vm_compute. reflexivity. Qed.
